(** * Layer Coverage Viewer: the interval-analysis engine

    A shallow embedding of the engine functions of [app_dash.py] and
    [app_streamlit.py] (chunk segmenter, interval merger, overlap and gap
    detectors, record filter, progress aggregator) and of [parse_stretch],
    with the properties the specification states about them.

    Conventions of the embedding
    - a Python [int] is a [Z] (unbounded), [//] by a positive constant is
      [Z.div] (both round towards minus infinity);
    - a Python [str] is a [string] of bytes; the order of [str] is the
      lexicographic order of the characters, which is [String.leb];
    - a [dict] used as a map is an association list in insertion order
      ([Dict]), since the code iterates over [items()];
    - a [dict] used as a record becomes a Rocq [Record];
    - [sorted] and [list.sort] are stable sorts by a key ([sort_by]);
    - an exception is a [Raise] in the [result] type. *)

From Stdlib Require Import List ZArith Lia Bool String Ascii.
From Stdlib Require Import Sorted Permutation.
From Stdlib Require DecimalString OrderedTypeEx DecimalPos.
Import ListNotations.

Local Open Scope string_scope.
Local Open Scope list_scope.
Local Open Scope Z_scope.

Set Implicit Arguments.

(* ================================================================== *)
(** ** Exceptions *)

Inductive exn : Type :=
| ValueError
| ZeroDivisionError.

Inductive result (A : Type) : Type :=
| Ok (a : A)
| Raise (e : exn).

Arguments Ok {A} a.
Arguments Raise {A} e.

Definition bind {A B : Type} (m : result A) (k : A -> result B) : result B :=
  match m with
  | Ok a => k a
  | Raise e => Raise e
  end.

Notation "x <- m ;; k" := (bind m (fun x => k))
  (at level 61, m at next level, right associativity).

(* ================================================================== *)
(** ** Stable sorting by a key: Python's [sorted(l, key=...)] *)

Section StableSort.
Variable A : Type.
(** [leb x y] is [key x <= key y]. *)
Variable leb : A -> A -> bool.

(** [x] comes from the left of everything in [l]: it goes in front of the
    elements with an equal key. *)
Fixpoint insert_by (x : A) (l : list A) : list A :=
  match l with
  | [] => [x]
  | y :: l' => if leb x y then x :: l else y :: insert_by x l'
  end.

Definition sort_by (l : list A) : list A := fold_right insert_by [] l.
End StableSort.

(* ================================================================== *)
(** ** Insertion-ordered dictionaries with string keys *)

Module Dict.
Definition t (V : Type) : Type := list (string * V).

Definition empty {V : Type} : t V := [].

(** [d.get(k)] *)
Fixpoint get {V : Type} (k : string) (d : t V) : option V :=
  match d with
  | [] => None
  | (k', v) :: d' => if String.eqb k' k then Some v else get k d'
  end.

(** [d[k] = v]: an existing key keeps its position, a new one goes last. *)
Fixpoint set {V : Type} (k : string) (v : V) (d : t V) : t V :=
  match d with
  | [] => [(k, v)]
  | (k', v') :: d' =>
      if String.eqb k' k then (k', v) :: d' else (k', v') :: set k v d'
  end.

(** [k in d] *)
Definition mem {V : Type} (k : string) (d : t V) : bool :=
  match get k d with Some _ => true | None => false end.

Definition keys {V : Type} (d : t V) : list string := map fst d.
End Dict.

(* ================================================================== *)
(** ** Data *)

(** [{"start": s, "end": e}] *)
Record interval : Type := Interval { start : Z; end_ : Z }.

(** [{"layer": .., "start": .., "end": .., "bill"?: .., "month"?: ..}] *)
Record record : Type := Rec {
  layer : string;
  r_start : Z;
  r_end : Z;
  bill : option string;
  month : option string
}.

(** [{"start": s, "end": e, "len": n}]: an overlap or a gap. *)
Record span : Type := Span { s_start : Z; s_end : Z; len : Z }.

(** One display segment of the chunk segmenter. *)
Record segment : Type := Segment {
  chunk_start : Z;
  chunk_label : string;
  seg_layer : string;
  rel_start : Z;
  rel_end : Z;
  abs_start : Z;
  abs_end : Z
}.

Record stretch_segments : Type := StretchSegments {
  segments : list segment;
  layers : list string;
  chunks : list Z
}.

(** A percentage: the integer [0] of the guarded branch, or the float
    [n / d * 100]; the quotient is kept symbolic, its rounding is not
    modelled. *)
Inductive pct_value : Type :=
| PctZero
| PctOf (n d : Z).

Record layer_progress : Type := LayerProgress { lp_len : Z; lp_pct : pct_value }.

Record bill_progress : Type := BillProgress {
  bp_bill : string;
  bp_layer : string;
  bp_len : Z;
  bp_pct : pct_value
}.

Record progress : Type := Progress {
  route_extent : Z;
  overall_len : Z;
  overall_pct : pct_value;
  per_layer : Dict.t layer_progress;
  per_layer_per_bill : list bill_progress
}.

(** [r.get("bill")] used as a condition: present and not the empty string. *)
Definition truthy (o : option string) : bool :=
  match o with
  | Some s => negb (String.eqb s "")
  | None => false
  end.

Definition interval_of (r : record) : interval :=
  {| start := r_start r; end_ := r_end r |}.

(** [str(n)] for an integer. *)
Definition str_of_Z (n : Z) : string :=
  DecimalString.NilZero.string_of_int (Z.to_int n).

(** [n / d] of two integers (true division). *)
Definition truediv (n d : Z) : result (Z * Z) :=
  if d =? 0 then Raise ZeroDivisionError else Ok (n, d).

(** [min(...)] and [max(...)] of a sequence. *)
Definition py_min (l : list Z) : result Z :=
  match l with
  | [] => Raise ValueError
  | x :: l' => Ok (fold_left Z.min l' x)
  end.

Definition py_max (l : list Z) : result Z :=
  match l with
  | [] => Raise ValueError
  | x :: l' => Ok (fold_left Z.max l' x)
  end.

Definition sum_Z (l : list Z) : Z := fold_left Z.add l 0.

(** Order of the sort keys. *)
Definition interval_leb (a b : interval) : bool := start a <=? start b.

(** Tuples of keys compare lexicographically. *)
Definition segment_leb (a b : segment) : bool :=
  if chunk_start a <? chunk_start b then true
  else if chunk_start a =? chunk_start b then
    if String.ltb (seg_layer a) (seg_layer b) then true
    else if String.eqb (seg_layer a) (seg_layer b) then rel_start a <=? rel_start b
    else false
  else false.

Definition bill_progress_leb (a b : bill_progress) : bool :=
  if String.ltb (bp_bill a) (bp_bill b) then true
  else if String.eqb (bp_bill a) (bp_bill b) then String.leb (bp_layer a) (bp_layer b)
  else false.

(** A [set]: no duplicates; [sorted] makes the order of iteration
    irrelevant. *)
Definition set_add {A : Type} (eqb : A -> A -> bool) (x : A) (s : list A) : list A :=
  if existsb (eqb x) s then s else s ++ [x].

(** [key.split("|", 1)]: [None] when the separator does not occur (the list
    then has one element). *)
Fixpoint split_first (sep : ascii) (s : string) : option (string * string) :=
  match s with
  | EmptyString => None
  | String c s' =>
      if Ascii.eqb c sep then Some (EmptyString, s')
      else match split_first sep s' with
           | Some (a, b) => Some (String c a, b)
           | None => None
           end
  end.

(** [x in l] for a list of strings. *)
Definition str_in (x : string) (l : list string) : bool := existsb (String.eqb x) l.

(** Characters of the pattern of [parse_stretch], on ASCII text: [\d] is a
    decimal digit, [\s] and [strip()] take the characters for which
    [str.isspace] holds. A character above 127 is neither a digit nor a
    space here, and [int] has no limit on the number of digits. *)
Definition is_digit (c : ascii) : bool :=
  let n := N_of_ascii c in ((48 <=? n) && (n <=? 57))%N.

Definition is_space (c : ascii) : bool :=
  let n := N_of_ascii c in
  (((9 <=? n) && (n <=? 13)) || ((28 <=? n) && (n <=? 32)))%N.

Fixpoint take_while {A : Type} (p : A -> bool) (l : list A) : list A :=
  match l with
  | [] => []
  | x :: l' => if p x then x :: take_while p l' else []
  end.

Fixpoint drop_while {A : Type} (p : A -> bool) (l : list A) : list A :=
  match l with
  | [] => []
  | x :: l' => if p x then drop_while p l' else l
  end.

(** [s.strip()] *)
Definition strip (l : list ascii) : list ascii :=
  rev (drop_while is_space (rev (drop_while is_space l))).

(** [int(m[i])] of a run of decimal digits. *)
Definition int_of_digits (l : list ascii) : Z :=
  fold_left (fun n c => 10 * n + (Z.of_N (N_of_ascii c) - 48)) l 0.

(** [$]: the end of the text, or just before a final newline. *)
Definition at_end (l : list ascii) : bool :=
  match l with
  | [] => true
  | [c] => Ascii.eqb c "010"%char
  | _ => false
  end.

(* ================================================================== *)
(** ** The engine of [app_dash.py] *)

Module Dash.

Definition CHUNK_SIZE : Z := 1000.

(** [re.match(r"^(\d+)\s*-\s*(\d+)$", s.strip())]: the classes of the
    pattern are disjoint, so the greedy match is a left-to-right scan. *)
Definition parse_stretch (s : string) : option (Z * Z) :=
  if String.eqb s "" then None
  else
    let t := strip (list_ascii_of_string s) in
    let m1 := take_while is_digit t in
    let t := drop_while is_space (drop_while is_digit t) in
    match m1, t with
    | _ :: _, c :: t =>
        if Ascii.eqb c "-"%char then
          let t := drop_while is_space t in
          let m2 := take_while is_digit t in
          match m2 with
          | _ :: _ =>
              if at_end (drop_while is_digit t) then
                let start := int_of_digits m1 in
                let end_ := int_of_digits m2 in
                if start <=? end_ then Some (start, end_) else None
              else None
          | [] => None
          end
        else None
    | _, _ => None
    end.

(** The body of [while c <= c_end] in [build_stretch_segments], on the
    state [(segments, chunks)]; [None] when the fuel runs out before the
    loop condition fails. *)
Fixpoint chunk_loop (fuel : nat) (r : record) (c_end c : Z)
    (st : list segment * list Z) : option (list segment * list Z) :=
  if c <=? c_end then
    match fuel with
    | O => None
    | S fuel' =>
        let '(segments, chunks) := st in
        let chunks := set_add Z.eqb c chunks in
        let seg_start := Z.max (r_start r) c in
        let seg_end := Z.min (r_end r) (c + CHUNK_SIZE) in
        let segments :=
          if seg_start <? seg_end then
            let rel_start := seg_start - c in
            let rel_end := seg_end - c in
            segments ++ [ {| chunk_start := c;
                             chunk_label := (str_of_Z c ++ "-" ++ str_of_Z (c + CHUNK_SIZE))%string;
                             seg_layer := layer r;
                             rel_start := rel_start;
                             rel_end := rel_end;
                             abs_start := seg_start;
                             abs_end := seg_end |} ]
          else segments in
        chunk_loop fuel' r c_end (c + CHUNK_SIZE) (segments, chunks)
    end
  else Some st.

(** One turn of [for r in records]; the fuel is the number of chunk
    starts from [c_start] to [c_end]. *)
Definition record_step (st : option (list segment * list string * list Z)) (r : record)
    : option (list segment * list string * list Z) :=
  match st with
  | None => None
  | Some (segments, layers, chunks) =>
      let layers := set_add String.eqb (layer r) layers in
      let c_start := (r_start r / CHUNK_SIZE) * CHUNK_SIZE in
      let c_end := (r_end r / CHUNK_SIZE) * CHUNK_SIZE in
      let fuel := Z.to_nat ((c_end - c_start) / CHUNK_SIZE + 1) in
      match chunk_loop fuel r c_end c_start (segments, chunks) with
      | None => None
      | Some (segments, chunks) => Some (segments, layers, chunks)
      end
  end.

Definition build_stretch_segments (records : list record) : option stretch_segments :=
  match fold_left record_step records (Some ([], [], [])) with
  | None => None
  | Some (segments, layers, chunks) =>
      Some {| segments := sort_by segment_leb segments;
              layers := sort_by String.leb layers;
              chunks := sort_by Z.leb chunks |}
  end.

(** One turn of [for cur in sorted_i[1:]]; [merged] is never empty. *)
Definition merge_step (merged : list interval) (cur : interval) : list interval :=
  let last := List.last merged cur in
  if start cur <=? end_ last then
    removelast merged ++ [ {| start := start last; end_ := Z.max (end_ last) (end_ cur) |} ]
  else merged ++ [cur].

Definition merge_intervals (intervals : list interval) : list interval :=
  match intervals with
  | [] => []
  | _ :: _ =>
      match sort_by interval_leb intervals with
      | [] => []
      | first :: rest => fold_left merge_step rest [first]
      end
  end.

(** [by_layer.setdefault(r["layer"], []).append({...})] for every record. *)
Definition group_step (by_layer : Dict.t (list interval)) (r : record)
    : Dict.t (list interval) :=
  let l := match Dict.get (layer r) by_layer with Some l => l | None => [] end in
  Dict.set (layer r) (l ++ [interval_of r]) by_layer.

Definition group_by_layer (records : list record) : Dict.t (list interval) :=
  fold_left group_step records Dict.empty.

(** The body of the two [for] loops over [i < j]. *)
Definition overlap_of (intervals : list interval) (i j : nat) : list interval :=
  match nth_error intervals i, nth_error intervals j with
  | Some a, Some b =>
      let start := Z.max (start a) (start b) in
      let end_ := Z.min (end_ a) (end_ b) in
      if start <? end_ then [ {| start := start; end_ := end_ |} ] else []
  | _, _ => []
  end.

Definition pairwise_overlaps (intervals : list interval) : list interval :=
  let n := List.length intervals in
  flat_map (fun i => flat_map (overlap_of intervals i) (seq (i + 1) (n - (i + 1))))
           (seq 0 n).

Definition with_len (m : interval) : span :=
  {| s_start := start m; s_end := end_ m; len := end_ m - start m |}.

Definition find_overlaps_within_layer (records : list record) : Dict.t (list span) :=
  let by_layer := group_by_layer records in
  fold_left
    (fun result '(layer, intervals) =>
       let overlaps := pairwise_overlaps intervals in
       let merged := merge_intervals overlaps in
       Dict.set layer (map with_len merged) result)
    by_layer Dict.empty.

(** One turn of [for seg in merged] on the state [(gaps, pos)]. *)
Definition gap_step (st : list span * Z) (seg : interval) : list span * Z :=
  let '(gaps, pos) := st in
  let gaps :=
    if pos <? start seg then
      gaps ++ [ {| s_start := pos; s_end := start seg; len := start seg - pos |} ]
    else gaps in
  (gaps, Z.max pos (end_ seg)).

Definition layer_gaps (min_start max_end : Z) (intervals : list interval) : list span :=
  let merged := merge_intervals intervals in
  let '(gaps, pos) := fold_left gap_step merged ([], min_start) in
  if pos <? max_end then
    gaps ++ [ {| s_start := pos; s_end := max_end; len := max_end - pos |} ]
  else gaps.

Definition find_gaps_per_layer (records : list record) : result (Dict.t (list span)) :=
  min_start <- py_min (map r_start records) ;;
  max_end <- py_max (map r_end records) ;;
  let by_layer := group_by_layer records in
  Ok (fold_left
        (fun result '(layer, intervals) =>
           Dict.set layer (layer_gaps min_start max_end intervals) result)
        by_layer Dict.empty).

(** The two [continue] tests. *)
Definition skipped (filter : list string) (tag : option string) : bool :=
  match filter with
  | [] => false
  | _ :: _ =>
      truthy tag &&
      match tag with
      | Some t => negb (str_in t filter)
      | None => false
      end
  end.

Definition filter_records (records : list record) (filter_bills filter_months : list string)
    : list record :=
  fold_left
    (fun out r =>
       if skipped filter_bills (bill r) then out
       else if skipped filter_months (month r) then out
       else out ++ [r])
    records [].

(** [(x / route_extent * 100) if route_extent else 0] *)
Definition pct (x route_extent : Z) : result pct_value :=
  if negb (route_extent =? 0) then
    q <- truediv x route_extent ;;
    Ok (PctOf (fst q) (snd q))
  else Ok PctZero.

Definition progress_step (st : Dict.t (list interval) * Dict.t Z) (r : record)
    : Dict.t (list interval) * Dict.t Z :=
  let '(by_layer_intervals, by_bill_layer) := st in
  let by_layer_intervals :=
    if negb (Dict.mem (layer r) by_layer_intervals)
    then Dict.set (layer r) [] by_layer_intervals
    else by_layer_intervals in
  let by_layer_intervals :=
    match Dict.get (layer r) by_layer_intervals with
    | Some l => Dict.set (layer r) (l ++ [interval_of r]) by_layer_intervals
    | None => by_layer_intervals
    end in
  let by_bill_layer :=
    if truthy (bill r) then
      match bill r with
      | Some b =>
          let key := (b ++ "|" ++ layer r)%string in
          let old := match Dict.get key by_bill_layer with Some n => n | None => 0 end in
          Dict.set key (old + (r_end r - r_start r)) by_bill_layer
      | None => by_bill_layer
      end
    else by_bill_layer in
  (by_layer_intervals, by_bill_layer).

Definition merged_len (intervals : list interval) : Z :=
  sum_Z (map (fun m => end_ m - start m) (merge_intervals intervals)).

Fixpoint per_layer_loop (route_extent : Z) (items : list (string * list interval))
    (per_layer : Dict.t layer_progress) : result (Dict.t layer_progress) :=
  match items with
  | [] => Ok per_layer
  | (layer, intervals) :: items' =>
      let total := merged_len intervals in
      p <- pct total route_extent ;;
      per_layer_loop route_extent items'
        (Dict.set layer {| lp_len := total; lp_pct := p |} per_layer)
  end.

Fixpoint per_bill_loop (route_extent : Z) (items : list (string * Z))
    (per_layer_per_bill : list bill_progress) : result (list bill_progress) :=
  match items with
  | [] => Ok per_layer_per_bill
  | (key, ln) :: items' =>
      match split_first "|"%char key with
      | None => Raise ValueError
      | Some (bill, layer) =>
          p <- pct ln route_extent ;;
          per_bill_loop route_extent items'
            (per_layer_per_bill ++
             [ {| bp_bill := bill; bp_layer := layer; bp_len := ln; bp_pct := p |} ])
      end
  end.

Definition compute_progress (records : list record) (route_extent : Z) : result progress :=
  let '(by_layer_intervals, by_bill_layer) :=
    fold_left progress_step records (Dict.empty, Dict.empty) in
  per_layer <- per_layer_loop route_extent by_layer_intervals Dict.empty ;;
  let all_intervals := map interval_of records in
  let overall_len := merged_len all_intervals in
  overall_pct <- pct overall_len route_extent ;;
  per_layer_per_bill <- per_bill_loop route_extent by_bill_layer [] ;;
  let per_layer_per_bill := sort_by bill_progress_leb per_layer_per_bill in
  Ok {| route_extent := route_extent;
        overall_len := overall_len;
        overall_pct := overall_pct;
        per_layer := per_layer;
        per_layer_per_bill := per_layer_per_bill |}.

End Dash.

(* ================================================================== *)
(** ** The engine of [app_streamlit.py]

    The second front end carries its own copy of the constant and of the
    functions. *)

Module Streamlit.

Definition CHUNK_SIZE : Z := 1000.

(** [re.match(r"^(\d+)\s*-\s*(\d+)$", s.strip())]: the classes of the
    pattern are disjoint, so the greedy match is a left-to-right scan. *)
Definition parse_stretch (s : string) : option (Z * Z) :=
  if String.eqb s "" then None
  else
    let t := strip (list_ascii_of_string s) in
    let m1 := take_while is_digit t in
    let t := drop_while is_space (drop_while is_digit t) in
    match m1, t with
    | _ :: _, c :: t =>
        if Ascii.eqb c "-"%char then
          let t := drop_while is_space t in
          let m2 := take_while is_digit t in
          match m2 with
          | _ :: _ =>
              if at_end (drop_while is_digit t) then
                let start := int_of_digits m1 in
                let end_ := int_of_digits m2 in
                if start <=? end_ then Some (start, end_) else None
              else None
          | [] => None
          end
        else None
    | _, _ => None
    end.

(** The body of [while c <= c_end] in [build_stretch_segments], on the
    state [(segments, chunks)]; [None] when the fuel runs out before the
    loop condition fails. *)
Fixpoint chunk_loop (fuel : nat) (r : record) (c_end c : Z)
    (st : list segment * list Z) : option (list segment * list Z) :=
  if c <=? c_end then
    match fuel with
    | O => None
    | S fuel' =>
        let '(segments, chunks) := st in
        let chunks := set_add Z.eqb c chunks in
        let seg_start := Z.max (r_start r) c in
        let seg_end := Z.min (r_end r) (c + CHUNK_SIZE) in
        let segments :=
          if seg_start <? seg_end then
            let rel_start := seg_start - c in
            let rel_end := seg_end - c in
            segments ++ [ {| chunk_start := c;
                             chunk_label := (str_of_Z c ++ "-" ++ str_of_Z (c + CHUNK_SIZE))%string;
                             seg_layer := layer r;
                             rel_start := rel_start;
                             rel_end := rel_end;
                             abs_start := seg_start;
                             abs_end := seg_end |} ]
          else segments in
        chunk_loop fuel' r c_end (c + CHUNK_SIZE) (segments, chunks)
    end
  else Some st.

(** One turn of [for r in records]; the fuel is the number of chunk
    starts from [c_start] to [c_end]. *)
Definition record_step (st : option (list segment * list string * list Z)) (r : record)
    : option (list segment * list string * list Z) :=
  match st with
  | None => None
  | Some (segments, layers, chunks) =>
      let layers := set_add String.eqb (layer r) layers in
      let c_start := (r_start r / CHUNK_SIZE) * CHUNK_SIZE in
      let c_end := (r_end r / CHUNK_SIZE) * CHUNK_SIZE in
      let fuel := Z.to_nat ((c_end - c_start) / CHUNK_SIZE + 1) in
      match chunk_loop fuel r c_end c_start (segments, chunks) with
      | None => None
      | Some (segments, chunks) => Some (segments, layers, chunks)
      end
  end.

Definition build_stretch_segments (records : list record) : option stretch_segments :=
  match fold_left record_step records (Some ([], [], [])) with
  | None => None
  | Some (segments, layers, chunks) =>
      Some {| segments := sort_by segment_leb segments;
              layers := sort_by String.leb layers;
              chunks := sort_by Z.leb chunks |}
  end.

(** One turn of [for cur in sorted_i[1:]]; [merged] is never empty. *)
Definition merge_step (merged : list interval) (cur : interval) : list interval :=
  let last := List.last merged cur in
  if start cur <=? end_ last then
    removelast merged ++ [ {| start := start last; end_ := Z.max (end_ last) (end_ cur) |} ]
  else merged ++ [cur].

Definition merge_intervals (intervals : list interval) : list interval :=
  match intervals with
  | [] => []
  | _ :: _ =>
      match sort_by interval_leb intervals with
      | [] => []
      | first :: rest => fold_left merge_step rest [first]
      end
  end.

(** [by_layer.setdefault(r["layer"], []).append({...})] for every record. *)
Definition group_step (by_layer : Dict.t (list interval)) (r : record)
    : Dict.t (list interval) :=
  let l := match Dict.get (layer r) by_layer with Some l => l | None => [] end in
  Dict.set (layer r) (l ++ [interval_of r]) by_layer.

Definition group_by_layer (records : list record) : Dict.t (list interval) :=
  fold_left group_step records Dict.empty.

(** The body of the two [for] loops over [i < j]. *)
Definition overlap_of (intervals : list interval) (i j : nat) : list interval :=
  match nth_error intervals i, nth_error intervals j with
  | Some a, Some b =>
      let start := Z.max (start a) (start b) in
      let end_ := Z.min (end_ a) (end_ b) in
      if start <? end_ then [ {| start := start; end_ := end_ |} ] else []
  | _, _ => []
  end.

Definition pairwise_overlaps (intervals : list interval) : list interval :=
  let n := List.length intervals in
  flat_map (fun i => flat_map (overlap_of intervals i) (seq (i + 1) (n - (i + 1))))
           (seq 0 n).

Definition with_len (m : interval) : span :=
  {| s_start := start m; s_end := end_ m; len := end_ m - start m |}.

Definition find_overlaps_within_layer (records : list record) : Dict.t (list span) :=
  let by_layer := group_by_layer records in
  fold_left
    (fun result '(layer, intervals) =>
       let overlaps := pairwise_overlaps intervals in
       let merged := merge_intervals overlaps in
       Dict.set layer (map with_len merged) result)
    by_layer Dict.empty.

(** One turn of [for seg in merged] on the state [(gaps, pos)]. *)
Definition gap_step (st : list span * Z) (seg : interval) : list span * Z :=
  let '(gaps, pos) := st in
  let gaps :=
    if pos <? start seg then
      gaps ++ [ {| s_start := pos; s_end := start seg; len := start seg - pos |} ]
    else gaps in
  (gaps, Z.max pos (end_ seg)).

Definition layer_gaps (min_start max_end : Z) (intervals : list interval) : list span :=
  let merged := merge_intervals intervals in
  let '(gaps, pos) := fold_left gap_step merged ([], min_start) in
  if pos <? max_end then
    gaps ++ [ {| s_start := pos; s_end := max_end; len := max_end - pos |} ]
  else gaps.

Definition find_gaps_per_layer (records : list record) : result (Dict.t (list span)) :=
  min_start <- py_min (map r_start records) ;;
  max_end <- py_max (map r_end records) ;;
  let by_layer := group_by_layer records in
  Ok (fold_left
        (fun result '(layer, intervals) =>
           Dict.set layer (layer_gaps min_start max_end intervals) result)
        by_layer Dict.empty).

(** The two [continue] tests. *)
Definition skipped (filter : list string) (tag : option string) : bool :=
  match filter with
  | [] => false
  | _ :: _ =>
      truthy tag &&
      match tag with
      | Some t => negb (str_in t filter)
      | None => false
      end
  end.

Definition filter_records (records : list record) (filter_bills filter_months : list string)
    : list record :=
  fold_left
    (fun out r =>
       if skipped filter_bills (bill r) then out
       else if skipped filter_months (month r) then out
       else out ++ [r])
    records [].

(** [(x / route_extent * 100) if route_extent else 0] *)
Definition pct (x route_extent : Z) : result pct_value :=
  if negb (route_extent =? 0) then
    q <- truediv x route_extent ;;
    Ok (PctOf (fst q) (snd q))
  else Ok PctZero.

Definition progress_step (st : Dict.t (list interval) * Dict.t Z) (r : record)
    : Dict.t (list interval) * Dict.t Z :=
  let '(by_layer_intervals, by_bill_layer) := st in
  let by_layer_intervals :=
    if negb (Dict.mem (layer r) by_layer_intervals)
    then Dict.set (layer r) [] by_layer_intervals
    else by_layer_intervals in
  let by_layer_intervals :=
    match Dict.get (layer r) by_layer_intervals with
    | Some l => Dict.set (layer r) (l ++ [interval_of r]) by_layer_intervals
    | None => by_layer_intervals
    end in
  let by_bill_layer :=
    if truthy (bill r) then
      match bill r with
      | Some b =>
          let key := (b ++ "|" ++ layer r)%string in
          let old := match Dict.get key by_bill_layer with Some n => n | None => 0 end in
          Dict.set key (old + (r_end r - r_start r)) by_bill_layer
      | None => by_bill_layer
      end
    else by_bill_layer in
  (by_layer_intervals, by_bill_layer).

Definition merged_len (intervals : list interval) : Z :=
  sum_Z (map (fun m => end_ m - start m) (merge_intervals intervals)).

Fixpoint per_layer_loop (route_extent : Z) (items : list (string * list interval))
    (per_layer : Dict.t layer_progress) : result (Dict.t layer_progress) :=
  match items with
  | [] => Ok per_layer
  | (layer, intervals) :: items' =>
      let total := merged_len intervals in
      p <- pct total route_extent ;;
      per_layer_loop route_extent items'
        (Dict.set layer {| lp_len := total; lp_pct := p |} per_layer)
  end.

Fixpoint per_bill_loop (route_extent : Z) (items : list (string * Z))
    (per_layer_per_bill : list bill_progress) : result (list bill_progress) :=
  match items with
  | [] => Ok per_layer_per_bill
  | (key, ln) :: items' =>
      match split_first "|"%char key with
      | None => Raise ValueError
      | Some (bill, layer) =>
          p <- pct ln route_extent ;;
          per_bill_loop route_extent items'
            (per_layer_per_bill ++
             [ {| bp_bill := bill; bp_layer := layer; bp_len := ln; bp_pct := p |} ])
      end
  end.

Definition compute_progress (records : list record) (route_extent : Z) : result progress :=
  let '(by_layer_intervals, by_bill_layer) :=
    fold_left progress_step records (Dict.empty, Dict.empty) in
  per_layer <- per_layer_loop route_extent by_layer_intervals Dict.empty ;;
  let all_intervals := map interval_of records in
  let overall_len := merged_len all_intervals in
  overall_pct <- pct overall_len route_extent ;;
  per_layer_per_bill <- per_bill_loop route_extent by_bill_layer [] ;;
  let per_layer_per_bill := sort_by bill_progress_leb per_layer_per_bill in
  Ok {| route_extent := route_extent;
        overall_len := overall_len;
        overall_pct := overall_pct;
        per_layer := per_layer;
        per_layer_per_bill := per_layer_per_bill |}.

End Streamlit.

(* ================================================================== *)
(** ** The chart of both front ends

    [get_color] and [build_chart_figure] have the same text in
    [app_dash.py] and in [app_streamlit.py]. Of the [plotly] figure the
    model keeps what the function computes: the bars ([go.Bar] traces), the
    category labels of the y axis and the height; the constant styling is
    left out. *)

(** [ValueError] of [list.index] and [IndexError] of [l[i]]. *)
Inductive lookup_error : Type :=
| NotInList
| OutOfRange.

Inductive outcome (A : Type) : Type :=
| Return (a : A)
| Throw (e : lookup_error).

Arguments Return {A} a.
Arguments Throw {A} e.

Definition obind {A B : Type} (m : outcome A) (k : A -> outcome B) : outcome B :=
  match m with
  | Return a => k a
  | Throw e => Throw e
  end.

Notation "x <~ m ;; k" := (obind m (fun x => k))
  (at level 61, m at next level, right associativity).


(** [l[i]]: a negative index counts from the end. *)
Definition py_getitem {A : Type} (l : list A) (i : Z) : outcome A :=
  let n := Z.of_nat (List.length l) in
  let i := if i <? 0 then i + n else i in
  if (i <? 0) || (n <=? i) then Throw OutOfRange
  else match nth_error l (Z.to_nat i) with
       | Some x => Return x
       | None => Throw OutOfRange
       end.


Module Chart.

Definition LAYER_COLORS : Dict.t string :=
  [ ("Subgrade", "#238636"); ("Embankment EW", "#8957e5") ].

Definition DEFAULT_COLORS : list string :=
  [ "#238636"; "#8957e5"; "#1f6feb"; "#d29922"; "#db61a2" ].

(** The default of [LAYER_COLORS.get] is evaluated before the lookup. *)
Definition get_color (layer : string) (index : Z) : outcome string :=
  default <~ py_getitem DEFAULT_COLORS
               (index mod Z.of_nat (List.length DEFAULT_COLORS)) ;;
  Return (match Dict.get layer LAYER_COLORS with
          | Some color => color
          | None => default
          end).








End Chart.

(* ================================================================== *)
(** ** Ingestion: [parse_date] and the row loop of [parse_csv]

    [pandas], [int] and [datetime.strptime] are library code. The model
    takes a row of the data frame as the texts [str(row.iloc[i] or "")] of
    its cells ([None] for a column that the header does not have, index
    [-1]), and takes [int] and [strptime] as functions that return [None]
    where the library raises [ValueError]. The header sniffing of
    [parse_csv] is not modelled. *)

Record datetime : Type := Datetime { dt_year : Z; dt_month : Z; dt_day : Z }.

Record row : Type := Row {
  cell_item : string;
  cell_stretch : string;
  cell_bill : option string;
  cell_est : option string;
  cell_date : option string
}.

(** [s.strip()] on a [str]. *)
Definition strip_str (s : string) : string :=
  string_of_list_ascii (strip (list_ascii_of_string s)).

(** [s.replace(",", "")] *)
Definition remove_commas (s : string) : string :=
  string_of_list_ascii
    (filter (fun c => negb (Ascii.eqb c ","%char)) (list_ascii_of_string s)).

(** [f"{n:02d}"] *)
Definition pad2 (n : Z) : string :=
  let t := str_of_Z n in
  if (String.length t <? 2)%nat then ("0" ++ t)%string else t.

(** The tag sets of the filter widgets:
    [sorted(set(r.get(tag) for r in all_records if r.get(tag)))]. *)
Definition tag_options (tag : record -> option string) (all_records : list record)
    : list string :=
  sort_by String.leb
    (fold_left
       (fun s r => if truthy (tag r)
                   then match tag r with
                        | Some t => set_add String.eqb t s
                        | None => s
                        end
                   else s)
       all_records []).

Module Ingest.

Definition DATE_FORMATS : list string :=
  [ "%d.%m.%Y"; "%d.%m.%y"; "%d-%m-%Y"; "%Y-%m-%d" ].

(** [for fmt in (...): try: return strptime(s, fmt) except ValueError: continue] *)
Fixpoint first_format (strptime : string -> string -> option datetime)
    (s : string) (formats : list string) : option datetime :=
  match formats with
  | [] => None
  | fmt :: formats' =>
      match strptime s fmt with
      | Some dt => Some dt
      | None => first_format strptime s formats'
      end
  end.

Definition parse_date (strptime : string -> string -> option datetime)
    (s : string) : option datetime :=
  if String.eqb s "" then None
  else first_format strptime (strip_str s) DATE_FORMATS.

(** One turn of [for _, row in df.iterrows()] on [(records, route_extent)]. *)
Definition row_step (py_int : string -> option Z)
    (strptime : string -> string -> option datetime)
    (st : list record * Z) (w : row) : list record * Z :=
  let '(records, route_extent) := st in
  let item := strip_str (cell_item w) in
  let stretch := strip_str (cell_stretch w) in
  if String.eqb item "" || String.eqb stretch "" then st
  else
    match Dash.parse_stretch stretch with
    | None => st
    | Some span =>
        let bill :=
          match cell_bill w with
          | Some c => let bill := strip_str c in
                      if String.eqb bill "" then None else Some bill
          | None => None
          end in
        let route_extent :=
          match cell_est w with
          | Some c =>
              match py_int (remove_commas c) with
              | Some est => if 0 <? est then est else route_extent
              | None => route_extent
              end
          | None => route_extent
          end in
        let month :=
          match cell_date w with
          | Some c =>
              match parse_date strptime c with
              | Some dt => Some (str_of_Z (dt_year dt) ++ "-" ++ pad2 (dt_month dt))%string
              | None => None
              end
          | None => None
          end in
        (records ++ [ {| layer := item; r_start := fst span; r_end := snd span;
                         bill := bill; month := month |} ],
         route_extent)
    end.

(** The loop and the end of [parse_csv]. *)
Definition parse_rows (py_int : string -> option Z)
    (strptime : string -> string -> option datetime)
    (rows : list row) : result (list record * Z) :=
  let '(records, route_extent) := fold_left (row_step py_int strptime) rows ([], 0) in
  route_extent <-
    (if (route_extent =? 0) && negb (match records with [] => true | _ :: _ => false end)
     then
       max_end <- py_max (map r_end records) ;;
       min_start <- py_min (map r_start records) ;;
       Ok (max_end - min_start)
     else Ok route_extent) ;;
  Ok (records, if route_extent =? 0 then 8000 else route_extent).

End Ingest.

(* ================================================================== *)
(** * Properties *)

(** ** The stable sort *)

Section StableSortFacts.
Variable A : Type.
Variable leb : A -> A -> bool.
Hypothesis leb_total : forall x y, leb x y = false -> leb y x = true.

Let le (x y : A) : Prop := leb x y = true.

Lemma insert_by_perm (x : A) (l : list A) : Permutation (x :: l) (insert_by leb x l).
Proof.
  induction l as [|y l IH]; simpl.
  - apply Permutation_refl.
  - destruct (leb x y).
    + apply Permutation_refl.
    + eapply perm_trans; [apply perm_swap|]. now apply perm_skip.
Qed.

Lemma sort_by_perm (l : list A) : Permutation l (sort_by leb l).
Proof.
  induction l as [|x l IH]; simpl.
  - constructor.
  - eapply perm_trans; [apply perm_skip, IH|]. apply insert_by_perm.
Qed.

Lemma sort_by_in (l : list A) (x : A) : In x (sort_by leb l) <-> In x l.
Proof.
  split; apply Permutation_in; [apply Permutation_sym|]; apply sort_by_perm.
Qed.

Lemma insert_by_hdrel (a x : A) (l : list A) :
  le a x -> HdRel le a l -> HdRel le a (insert_by leb x l).
Proof.
  intros Hax Hal. destruct l as [|y l]; simpl.
  - now constructor.
  - destruct (leb x y); constructor; trivial. now inversion Hal.
Qed.

Lemma insert_by_sorted (x : A) (l : list A) :
  Sorted le l -> Sorted le (insert_by leb x l).
Proof.
  induction 1 as [|y l Hs IH Hd]; simpl.
  - repeat constructor.
  - destruct (leb x y) eqn:E.
    + constructor; [now constructor|now constructor].
    + constructor; [exact IH|]. apply insert_by_hdrel; [|exact Hd].
      now apply leb_total.
Qed.

Lemma sort_by_sorted (l : list A) : Sorted le (sort_by leb l).
Proof.
  induction l as [|x l IH]; simpl; [constructor|now apply insert_by_sorted].
Qed.

Hypothesis leb_trans : forall x y z, leb x y = true -> leb y z = true -> leb x z = true.

Lemma sort_by_strongly_sorted (l : list A) : StronglySorted le (sort_by leb l).
Proof.
  apply Sorted_StronglySorted; [|apply sort_by_sorted].
  intros x y z; apply leb_trans.
Qed.
(** Stability: the elements whose key equals the key of [x] keep their
    order. *)
Let same_key (x y : A) : bool := leb x y && leb y x.

Lemma insert_by_same_key (x a : A) (l : list A) :
  filter (same_key x) (insert_by leb a l) =
  (if same_key x a then [a] else []) ++ filter (same_key x) l.
Proof.
  induction l as [|y l IH]; simpl.
  - now destruct (same_key x a).
  - destruct (leb a y) eqn:Eay; simpl.
    + now destruct (same_key x a).
    + rewrite IH. destruct (same_key x y) eqn:Exy; [|reflexivity].
      destruct (same_key x a) eqn:Exa; [|reflexivity].
      unfold same_key in Exy, Exa. apply andb_true_iff in Exy, Exa.
      destruct Exy as [Hxy _], Exa as [_ Hax].
      assert (Hay : leb a y = true) by (eapply leb_trans; eassumption).
      congruence.
Qed.

Lemma sort_by_stable (x : A) (l : list A) :
  filter (same_key x) (sort_by leb l) = filter (same_key x) l.
Proof.
  induction l as [|a l IH]; simpl; [reflexivity|].
  rewrite insert_by_same_key, IH. now destruct (same_key x a).
Qed.
End StableSortFacts.

Lemma StronglySorted_impl (A : Type) (R R' : A -> A -> Prop) (l : list A) :
  (forall x y, R x y -> R' x y) -> StronglySorted R l -> StronglySorted R' l.
Proof.
  intros HR. induction 1 as [|x l Hs IH Hf]; constructor; trivial.
  eapply Forall_impl; [|exact Hf]. auto.
Qed.

Lemma Sorted_impl (A : Type) (R R' : A -> A -> Prop) (l : list A) :
  (forall x y, R x y -> R' x y) -> Sorted R l -> Sorted R' l.
Proof.
  intros HR. induction 1 as [|x l Hs IH Hd]; constructor; trivial.
  destruct Hd; constructor; auto.
Qed.

(** A list sorted for [<=] without duplicates is sorted for [<]. *)
Lemma Sorted_NoDup_strict (A : Type) (le lt : A -> A -> Prop) (l : list A) :
  (forall x y, le x y -> x <> y -> lt x y) ->
  Sorted le l -> NoDup l -> Sorted lt l.
Proof.
  intros Hlt Hs. induction Hs as [|x l Hs IH Hd]; intros Hn; constructor.
  - apply IH. now inversion Hn.
  - destruct Hd as [|y l Hxy]; constructor.
    apply Hlt; [exact Hxy|]. inversion Hn as [|? ? Hnin _]; subst.
    intros ->. apply Hnin. now left.
Qed.

(** ** The interval merger *)

(** The relation between two neighbours of a merged list. *)
Definition apart (a b : interval) : Prop := end_ a < start b.
Definition start_le (a b : interval) : Prop := start a <= start b.

Lemma Sorted_snoc (A : Type) (R : A -> A -> Prop) (l : list A) (a b : A) :
  Sorted R (l ++ [a]) -> R a b -> Sorted R (l ++ [a; b]).
Proof.
  induction l as [|x l IH]; simpl; intros Hs Hab.
  - repeat constructor. exact Hab.
  - inversion Hs as [|? ? Hs' Hd]; subst. constructor; [now apply IH|].
    destruct l; simpl in *; inversion Hd; subst; now constructor.
Qed.

Lemma Sorted_snoc_replace (A : Type) (R : A -> A -> Prop) (l : list A) (a a' : A) :
  (forall x, R x a -> R x a') -> Sorted R (l ++ [a]) -> Sorted R (l ++ [a']).
Proof.
  intros Hr. induction l as [|x l IH]; simpl; intros Hs.
  - repeat constructor.
  - inversion Hs as [|? ? Hs' Hd]; subst. constructor; [now apply IH|].
    destruct l; simpl in *; inversion Hd; subst; constructor; auto.
Qed.

Lemma merge_step_snoc (l : list interval) (a cur : interval) :
  Dash.merge_step (l ++ [a]) cur =
  if start cur <=? end_ a
  then l ++ [ {| start := start a; end_ := Z.max (end_ a) (end_ cur) |} ]
  else l ++ [a; cur].
Proof.
  unfold Dash.merge_step. rewrite last_last, removelast_last.
  destruct (start cur <=? end_ a); [reflexivity|].
  now rewrite <- app_assoc.
Qed.

Section MergeInvariant.
(** [P] holds of the inputs and is kept when two intervals are joined. *)
Variable P : interval -> Prop.
Hypothesis P_join : forall a c, P a -> P c -> start a <= start c -> start c <= end_ a ->
  P {| start := start a; end_ := Z.max (end_ a) (end_ c) |}.

Lemma merge_loop_inv (rest : list interval) :
  forall (l : list interval) (a : interval),
  StronglySorted start_le rest ->
  (forall x, In x rest -> start a <= start x) ->
  Forall P rest -> Forall P (l ++ [a]) ->
  Sorted apart (l ++ [a]) -> Sorted start_le (l ++ [a]) ->
  let m := fold_left Dash.merge_step rest (l ++ [a]) in
  Sorted apart m /\ Sorted start_le m /\ Forall P m.
Proof.
  induction rest as [|cur rest IH]; intros l a Hss Hle HP HPl Hap Hst; simpl.
  - auto.
  - rewrite merge_step_snoc.
    apply StronglySorted_inv in Hss. destruct Hss as [Hss Hcur].
    rewrite Forall_forall in Hcur.
    inversion HP as [|? ? HPc HPr]; subst.
    apply Forall_app in HPl. destruct HPl as [HPl HPa].
    inversion HPa as [|? ? HPa' _]; subst.
    assert (Hac : start a <= start cur) by (apply Hle; now left).
    destruct (start cur <=? end_ a) eqn:E.
    + apply Z.leb_le in E. apply IH.
      * exact Hss.
      * intros x Hx. simpl. apply Hle. now right.
      * exact HPr.
      * apply Forall_app. split; [exact HPl|]. constructor; [|constructor].
        now apply P_join.
      * eapply Sorted_snoc_replace; [|exact Hap]. unfold apart. simpl. auto.
      * eapply Sorted_snoc_replace; [|exact Hst]. unfold start_le. simpl. auto.
    + apply Z.leb_gt in E.
      replace (l ++ [a; cur]) with ((l ++ [a]) ++ [cur]) by now rewrite <- app_assoc.
      apply IH.
      * exact Hss.
      * intros x Hx. now apply Hcur.
      * exact HPr.
      * apply Forall_app. split.
        -- apply Forall_app. split; [exact HPl|now constructor].
        -- now constructor.
      * rewrite <- app_assoc. now apply Sorted_snoc.
      * rewrite <- app_assoc. now apply Sorted_snoc.
Qed.

Lemma merge_intervals_inv (intervals : list interval) :
  Forall P intervals ->
  let m := Dash.merge_intervals intervals in
  Sorted apart m /\ Sorted start_le m /\ Forall P m.
Proof.
  intros HP. unfold Dash.merge_intervals.
  destruct intervals as [|i0 intervals']; [simpl; auto|].
  set (intervals := i0 :: intervals') in *.
  assert (Hs : StronglySorted start_le (sort_by interval_leb intervals)).
  { apply StronglySorted_impl with (R := fun x y => interval_leb x y = true).
    - unfold interval_leb, start_le. intros x y. apply Z.leb_le.
    - apply sort_by_strongly_sorted; unfold interval_leb; intros; lia. }
  assert (HPs : Forall P (sort_by interval_leb intervals)).
  { rewrite Forall_forall in *. intros x Hx. apply HP.
    now apply sort_by_in in Hx. }
  destruct (sort_by interval_leb intervals) as [|first rest]; [simpl; auto|].
  apply StronglySorted_inv in Hs. destruct Hs as [Hs Hfirst].
  rewrite Forall_forall in Hfirst.
  inversion HPs; subst.
  apply (@merge_loop_inv rest [] first); simpl; trivial;
    repeat constructor; trivial.
Qed.
End MergeInvariant.

Lemma Sorted_nth_error (A : Type) (R : A -> A -> Prop) (l : list A) :
  Sorted R l ->
  forall (i : nat) (a b : A),
  nth_error l i = Some a -> nth_error l (S i) = Some b -> R a b.
Proof.
  induction 1 as [|x l Hs IH Hd]; intros i a b Ha Hb.
  - now destruct i.
  - destruct i as [|i]; simpl in *.
    + injection Ha as <-. destruct l as [|y l]; [discriminate|].
      simpl in Hb. injection Hb as <-. now inversion Hd.
    + eapply IH; eauto.
Qed.

Lemma start_le_trans : Relations_1.Transitive start_le.
Proof. intros x y z. unfold start_le. lia. Qed.

(** C1. [merge_intervals] returns a list sorted ascending by [start]; every
    two neighbours [result[i]], [result[i+1]] satisfy
    [result[i].end < result[i+1].start]; two touching intervals are joined
    ([cur.start <= last.end]), so [[0,10)] and [[10,20)] give [[0,20)]; the
    empty list gives the empty list. *)
Theorem merge_intervals_sorted_disjoint :
  (forall intervals : list interval,
     let result := Dash.merge_intervals intervals in
     StronglySorted start_le result /\
     forall (i : nat) (a b : interval),
       nth_error result i = Some a -> nth_error result (S i) = Some b ->
       end_ a < start b) /\
  (forall s m e : Z, s <= m ->
     Dash.merge_intervals [Interval s m; Interval m e] = [Interval s (Z.max m e)]) /\
  Dash.merge_intervals [Interval 0 10; Interval 10 20] = [Interval 0 20] /\
  Dash.merge_intervals [] = [].
Proof.
  split; [|split; [|split]].
  - intros intervals result.
    destruct (@merge_intervals_inv (fun _ => True) (fun _ _ _ _ _ _ => I) intervals)
      as (Hap & Hst & _).
    { apply Forall_forall. trivial. }
    fold result in Hap, Hst. split.
    + apply Sorted_StronglySorted; [exact start_le_trans|exact Hst].
    + intros i a b Ha Hb. exact (Sorted_nth_error Hap i Ha Hb).
  - intros s m e Hsm. unfold Dash.merge_intervals. simpl. unfold interval_leb. simpl.
    apply Z.leb_le in Hsm. rewrite Hsm. simpl. unfold Dash.merge_step. simpl.
    now rewrite Z.leb_refl.
  - reflexivity.
  - reflexivity.
Qed.

Lemma merge_intervals_sorted_disjoint_witness :
  end_ (Interval 0 20) < start (Interval 30 40) /\
  Dash.merge_intervals [Interval 3 7; Interval 7 5] = [Interval 3 (Z.max 7 5)].
Proof.
  split.
  - apply (proj2 (proj1 merge_intervals_sorted_disjoint
                    [Interval 30 40; Interval 10 20; Interval 0 10]) 0%nat);
      reflexivity.
  - apply (proj1 (proj2 merge_intervals_sorted_disjoint)). lia.
Defined.

(** ** Dictionaries *)

Lemma dict_get_set_eq (V : Type) (k : string) (v : V) (d : Dict.t V) :
  Dict.get k (Dict.set k v d) = Some v.
Proof.
  induction d as [|[k' v'] d IH]; simpl.
  - now rewrite String.eqb_refl.
  - destruct (String.eqb k' k) eqn:E; simpl; rewrite E; auto.
Qed.

Lemma dict_get_set_neq (V : Type) (k k' : string) (v : V) (d : Dict.t V) :
  k <> k' -> Dict.get k' (Dict.set k v d) = Dict.get k' d.
Proof.
  intros Hne. induction d as [|[k0 v0] d IH]; simpl.
  - apply String.eqb_neq in Hne. now rewrite Hne.
  - destruct (String.eqb k0 k) eqn:E; simpl.
    + apply String.eqb_eq in E. subst k0.
      apply String.eqb_neq in Hne. now rewrite Hne.
    + now rewrite IH.
Qed.

Lemma dict_keys_set (V : Type) (k : string) (v : V) (d : Dict.t V) (k' : string) :
  In k' (Dict.keys (Dict.set k v d)) <-> k' = k \/ In k' (Dict.keys d).
Proof.
  unfold Dict.keys. induction d as [|[k0 v0] d IH]; simpl.
  - intuition.
  - destruct (String.eqb k0 k) eqn:E; simpl.
    + apply String.eqb_eq in E. subst. intuition.
    + rewrite IH. intuition.
Qed.

Lemma dict_set_nodup (V : Type) (k : string) (v : V) (d : Dict.t V) :
  NoDup (Dict.keys d) -> NoDup (Dict.keys (Dict.set k v d)).
Proof.
  induction d as [|[k0 v0] d IH]; simpl; intros Hn.
  - repeat constructor. simpl. tauto.
  - inversion Hn as [|? ? Hnin Hn']; subst.
    destruct (String.eqb k0 k) eqn:E; simpl.
    + now constructor.
    + constructor; [|now apply IH].
      intros Hin. apply (dict_keys_set k v d k0) in Hin. destruct Hin as [->|Hin].
      * now rewrite String.eqb_refl in E.
      * now apply Hnin.
Qed.

Lemma dict_get_none (V : Type) (k : string) (d : Dict.t V) :
  Dict.get k d = None <-> ~ In k (Dict.keys d).
Proof.
  unfold Dict.keys. induction d as [|[k0 v0] d IH]; simpl.
  - tauto.
  - destruct (String.eqb k0 k) eqn:E.
    + apply String.eqb_eq in E. subst. split; [discriminate|]. intros H. exfalso. auto.
    + apply String.eqb_neq in E. rewrite IH. tauto.
Qed.

(** [for k, v in d.items(): result[k] = f(v)]: the result holds [f(v)] for
    every key [k] of [d]. *)
Lemma dict_get_fold_set (V W : Type) (f : V -> W) (L : string) (d : Dict.t V) :
  NoDup (Dict.keys d) ->
  forall acc : Dict.t W,
  Dict.get L (fold_left (fun result '(k, v) => Dict.set k (f v) result) d acc) =
  match Dict.get L d with
  | Some v => Some (f v)
  | None => Dict.get L acc
  end.
Proof.
  induction d as [|[k v] d IH]; simpl; intros Hn acc; [reflexivity|].
  inversion Hn as [|? ? Hnin Hn']; subst. rewrite (IH Hn').
  destruct (String.eqb k L) eqn:E.
  - apply String.eqb_eq in E. subst k.
    apply dict_get_none in Hnin. rewrite Hnin. apply dict_get_set_eq.
  - apply String.eqb_neq in E.
    destruct (Dict.get L d); [reflexivity|]. now apply dict_get_set_neq.
Qed.

(** ** Grouping the records by layer *)

(** The raw intervals of one layer, in the order of the records. *)
Definition layer_intervals (L : string) (records : list record) : list interval :=
  map interval_of (filter (fun r => String.eqb (layer r) L) records).

Lemma group_fold_get (L : string) (records : list record) :
  forall d : Dict.t (list interval),
  Dict.get L (fold_left Dash.group_step records d) =
  match Dict.get L d, layer_intervals L records with
  | Some l, ivs => Some (l ++ ivs)
  | None, [] => None
  | None, ivs => Some ivs
  end.
Proof.
  unfold layer_intervals.
  induction records as [|r records IH]; intros d; simpl.
  - destruct (Dict.get L d); [now rewrite app_nil_r|reflexivity].
  - rewrite IH. unfold Dash.group_step.
    destruct (String.eqb (layer r) L) eqn:E.
    + apply String.eqb_eq in E. rewrite E. rewrite dict_get_set_eq. simpl.
      destruct (Dict.get L d); [now rewrite <- app_assoc|reflexivity].
    + apply String.eqb_neq in E. now rewrite (dict_get_set_neq _ _ E).
Qed.

Lemma group_by_layer_get (L : string) (records : list record) :
  Dict.get L (Dash.group_by_layer records) =
  match layer_intervals L records with
  | [] => None
  | ivs => Some ivs
  end.
Proof. unfold Dash.group_by_layer. now rewrite group_fold_get. Qed.

Lemma group_fold_nodup (records : list record) :
  forall d : Dict.t (list interval),
  NoDup (Dict.keys d) -> NoDup (Dict.keys (fold_left Dash.group_step records d)).
Proof.
  induction records as [|r records IH]; intros d Hn; simpl; [exact Hn|].
  apply IH. unfold Dash.group_step. now apply dict_set_nodup.
Qed.

Lemma group_by_layer_nodup (records : list record) :
  NoDup (Dict.keys (Dash.group_by_layer records)).
Proof. apply group_fold_nodup. constructor. Qed.

Definition has_layer (L : string) (records : list record) : Prop :=
  exists r, In r records /\ layer r = L.

Lemma layer_intervals_nonempty (L : string) (records : list record) :
  has_layer L records -> layer_intervals L records <> [].
Proof.
  intros (r & Hin & HL). unfold layer_intervals.
  assert (Hf : In r (filter (fun r => String.eqb (layer r) L) records)).
  { apply filter_In. split; [exact Hin|]. now apply String.eqb_eq. }
  intros Hnil. apply map_eq_nil in Hnil. rewrite Hnil in Hf. exact Hf.
Qed.

Lemma layer_intervals_empty (L : string) (records : list record) :
  ~ has_layer L records -> layer_intervals L records = [].
Proof.
  intros Hno. unfold layer_intervals.
  destruct (filter (fun r => String.eqb (layer r) L) records) as [|r l] eqn:E; [reflexivity|].
  exfalso. apply Hno. exists r.
  assert (Hf : In r (filter (fun r => String.eqb (layer r) L) records))
    by (rewrite E; now left).
  apply filter_In in Hf. destruct Hf as [Hin HL]. split; [exact Hin|].
  now apply String.eqb_eq.
Qed.

Lemma layer_intervals_in (L : string) (records : list record) (i : interval) :
  In i (layer_intervals L records) ->
  exists r, In r records /\ layer r = L /\ i = interval_of r.
Proof.
  unfold layer_intervals. intros Hin. apply in_map_iff in Hin.
  destruct Hin as (r & <- & Hf). apply filter_In in Hf. destruct Hf as [Hr HL].
  exists r. repeat split; trivial. now apply String.eqb_eq.
Qed.

(** ** [min] and [max] *)

Lemma fold_min_spec (l : list Z) :
  forall x, let m := fold_left Z.min l x in
  m <= x /\ (forall y, In y l -> m <= y) /\ (m = x \/ In m l).
Proof.
  induction l as [|a l IH]; intros x; simpl.
  - repeat split; [lia|tauto|now left].
  - specialize (IH (Z.min x a)). simpl in IH. destruct IH as (H1 & H2 & H3).
    repeat split.
    + lia.
    + intros y [<-|Hy]; [lia|auto].
    + destruct H3 as [H3|H3]; [|auto]. rewrite H3.
      destruct (Z.min_spec x a) as [[_ ->]|[_ ->]]; auto.
Qed.

Lemma fold_max_spec (l : list Z) :
  forall x, let m := fold_left Z.max l x in
  x <= m /\ (forall y, In y l -> y <= m) /\ (m = x \/ In m l).
Proof.
  induction l as [|a l IH]; intros x; simpl.
  - repeat split; [lia|tauto|now left].
  - specialize (IH (Z.max x a)). simpl in IH. destruct IH as (H1 & H2 & H3).
    repeat split.
    + lia.
    + intros y [<-|Hy]; [lia|auto].
    + destruct H3 as [H3|H3]; [|auto]. rewrite H3.
      destruct (Z.max_spec x a) as [[_ ->]|[_ ->]]; auto.
Qed.

Definition is_min (m : Z) (l : list Z) : Prop := In m l /\ forall y, In y l -> m <= y.
Definition is_max (m : Z) (l : list Z) : Prop := In m l /\ forall y, In y l -> y <= m.

Lemma py_min_spec (l : list Z) :
  l <> [] -> exists m, py_min l = Ok m /\ is_min m l.
Proof.
  destruct l as [|x l]; [congruence|]. intros _. simpl.
  eexists. split; [reflexivity|].
  destruct (fold_min_spec l x) as (H1 & H2 & H3). split; simpl.
  - destruct H3; auto.
  - intros y [<-|Hy]; auto.
Qed.

Lemma py_max_spec (l : list Z) :
  l <> [] -> exists m, py_max l = Ok m /\ is_max m l.
Proof.
  destruct l as [|x l]; [congruence|]. intros _. simpl.
  eexists. split; [reflexivity|].
  destruct (fold_max_spec l x) as (H1 & H2 & H3). split; simpl.
  - destruct H3; auto.
  - intros y [<-|Hy]; auto.
Qed.

(** ** The gap detector *)

(** C9. [find_gaps_per_layer] returns a mapping for every non-empty list of
    records; on the empty list, [min] of the empty sequence raises
    [ValueError] and so does [find_gaps_per_layer]. *)
Theorem find_gaps_per_layer_needs_a_record :
  (forall records : list record, records <> [] ->
     exists gaps, Dash.find_gaps_per_layer records = Ok gaps) /\
  py_min (map r_start []) = Raise ValueError /\
  Dash.find_gaps_per_layer [] = Raise ValueError.
Proof.
  split; [|split; reflexivity].
  intros records Hne. unfold Dash.find_gaps_per_layer.
  destruct (@py_min_spec (map r_start records)) as (lo & -> & _).
  { intros H. apply map_eq_nil in H. contradiction. }
  destruct (@py_max_spec (map r_end records)) as (hi & -> & _).
  { intros H. apply map_eq_nil in H. contradiction. }
  simpl. eexists. reflexivity.
Qed.

Lemma find_gaps_per_layer_needs_a_record_witness :
  exists gaps, Dash.find_gaps_per_layer [Rec "L" 100 150 None None] = Ok gaps.
Proof.
  apply (proj1 find_gaps_per_layer_needs_a_record). discriminate.
Defined.

(** Half-open pieces [(lo, hi)] of the chainage axis. *)
Definition inside (z : Z) (p : Z * Z) : bool := (fst p <=? z) && (z <? snd p).

(** The number of pieces that contain [z]. *)
Definition multiplicity (z : Z) (pieces : list (Z * Z)) : nat :=
  List.length (filter (inside z) pieces).

(** The pieces are non-empty, and every point of [[lo, hi)] lies in exactly
    one of them and no other point lies in any: no overlap, no hole. *)
Definition tiles (lo hi : Z) (pieces : list (Z * Z)) : Prop :=
  (forall p, In p pieces -> fst p < snd p) /\
  (forall z, multiplicity z pieces = if inside z (lo, hi) then 1%nat else 0%nat).

Definition interval_range (i : interval) : Z * Z := (start i, end_ i).
Definition span_range (g : span) : Z * Z := (s_start g, s_end g).

Lemma multiplicity_app (z : Z) (l1 l2 : list (Z * Z)) :
  multiplicity z (l1 ++ l2) = (multiplicity z l1 + multiplicity z l2)%nat.
Proof. unfold multiplicity. now rewrite filter_app, length_app. Qed.

Lemma multiplicity_cons (z : Z) (p : Z * Z) (l : list (Z * Z)) :
  multiplicity z (p :: l) = ((if inside z p then 1 else 0) + multiplicity z l)%nat.
Proof. unfold multiplicity. simpl. now destruct (inside z p). Qed.

Ltac inside_lia :=
  unfold inside, Dash.CHUNK_SIZE in *; simpl in *;
  repeat match goal with
         | |- context [?a <=? ?b] => destruct (Z.leb_spec a b)
         | |- context [?a <? ?b] => destruct (Z.ltb_spec a b)
         end; simpl in *; try reflexivity; try lia.

Definition well_formed_span (g : span) : Prop :=
  s_start g < s_end g /\ len g = s_end g - s_start g.

(** The walk over the merged intervals: from [pos] up to the end of the
    last interval, coverage and gaps alternate. *)
Lemma gap_walk (hi : Z) (merged : list interval) :
  forall (gaps0 : list span) (pos : Z),
  Sorted apart merged ->
  Forall (fun i => start i < end_ i /\ end_ i <= hi) merged ->
  match merged with [] => True | x :: _ => pos <= start x end ->
  pos <= hi ->
  exists (G : list span) (pos' : Z),
    fold_left Dash.gap_step merged (gaps0, pos) = (gaps0 ++ G, pos') /\
    pos <= pos' <= hi /\
    Forall well_formed_span G /\
    forall z, (multiplicity z (map interval_range merged) +
               multiplicity z (map span_range G))%nat =
              if inside z (pos, pos') then 1%nat else 0%nat.
Proof.
  induction merged as [|x merged IH]; intros gaps0 pos Hap Hwf Hhd Hhi.
  - exists [], pos. simpl. rewrite app_nil_r. repeat split; try lia; [constructor|].
    intros z. inside_lia.
  - inversion Hap as [|? ? Hap' Hd]; subst.
    inversion Hwf as [|? ? [Hx1 Hx2] Hwf']; subst.
    set (g := if pos <? start x
              then [ {| s_start := pos; s_end := start x; len := start x - pos |} ]
              else []).
    assert (Hstep : Dash.gap_step (gaps0, pos) x = (gaps0 ++ g, end_ x)).
    { unfold Dash.gap_step, g. replace (Z.max pos (end_ x)) with (end_ x) by lia.
      destruct (pos <? start x); [reflexivity|now rewrite app_nil_r]. }
    change (fold_left Dash.gap_step (x :: merged) (gaps0, pos))
      with (fold_left Dash.gap_step merged (Dash.gap_step (gaps0, pos) x)).
    rewrite Hstep.
    destruct (IH (gaps0 ++ g) (end_ x) Hap' Hwf') as (G & pos' & Hfold & Hpos & HG & Hmul).
    { destruct merged as [|y merged]; [exact I|]. inversion Hd; subst.
      unfold apart in *. lia. }
    { lia. }
    exists (g ++ G), pos'. repeat split; try lia.
    + now rewrite app_assoc.
    + apply Forall_app. split; [|exact HG]. unfold g.
      destruct (Z.ltb_spec pos (start x)); repeat constructor; simpl; lia.
    + intros z. specialize (Hmul z). simpl map. rewrite map_app, multiplicity_app.
      rewrite multiplicity_cons.
      assert (Hg : multiplicity z (map span_range g) =
                   if inside z (pos, start x) then 1%nat else 0%nat).
      { unfold g. destruct (Z.ltb_spec pos (start x)); simpl.
        - rewrite multiplicity_cons. unfold span_range. simpl.
          unfold multiplicity. simpl. lia.
        - unfold multiplicity. simpl. inside_lia. }
      rewrite Hg. unfold interval_range at 1.
      revert Hmul. generalize (multiplicity z (map interval_range merged)).
      generalize (multiplicity z (map span_range G)). intros n1 n2.
      inside_lia.
Qed.

Lemma layer_gaps_tile (lo hi : Z) (intervals : list interval) :
  lo <= hi ->
  Forall (fun i => lo <= start i /\ start i < end_ i /\ end_ i <= hi) intervals ->
  let gaps := Dash.layer_gaps lo hi intervals in
  tiles lo hi (map interval_range (Dash.merge_intervals intervals) ++ map span_range gaps) /\
  Forall well_formed_span gaps.
Proof.
  intros Hlohi Hin.
  destruct (@merge_intervals_inv
              (fun i => lo <= start i /\ start i < end_ i /\ end_ i <= hi)) with
    (intervals := intervals) as (Hap & _ & HP); [simpl; intros; lia|exact Hin|].
  unfold Dash.layer_gaps.
  set (merged := Dash.merge_intervals intervals) in *.
  destruct (@gap_walk hi merged [] lo) as (G & pos' & Hfold & Hpos & HG & Hmul);
    trivial.
  { eapply Forall_impl; [|exact HP]. simpl. intros; lia. }
  { destruct merged as [|x merged]; [exact I|]. inversion HP; subst. lia. }
  rewrite Hfold. simpl app.
  set (t := if pos' <? hi
            then [ {| s_start := pos'; s_end := hi; len := hi - pos' |} ] else []).
  assert (Hgaps : (if pos' <? hi
                   then G ++ [ {| s_start := pos'; s_end := hi; len := hi - pos' |} ]
                   else G) = G ++ t).
  { unfold t. destruct (pos' <? hi); [reflexivity|now rewrite app_nil_r]. }
  rewrite Hgaps. clear Hgaps.
  assert (Ht : Forall well_formed_span t).
  { unfold t. destruct (Z.ltb_spec pos' hi); repeat constructor; simpl; lia. }
  assert (HGt : Forall well_formed_span (G ++ t)) by (apply Forall_app; auto).
  split; [|exact HGt]. split.
  - intros p Hp. apply in_app_or in Hp. destruct Hp as [Hp|Hp].
    + apply in_map_iff in Hp. destruct Hp as (i & <- & Hi).
      rewrite Forall_forall in HP. specialize (HP i Hi). simpl. lia.
    + apply in_map_iff in Hp. destruct Hp as (g & <- & Hg).
      rewrite Forall_forall in HGt. now destruct (HGt g Hg).
  - intros z. specialize (Hmul z).
    rewrite multiplicity_app, map_app, multiplicity_app.
    assert (Hmt : multiplicity z (map span_range t) =
                  if inside z (pos', hi) then 1%nat else 0%nat).
    { unfold t. destruct (Z.ltb_spec pos' hi); simpl.
      - rewrite multiplicity_cons. unfold span_range. simpl.
        unfold multiplicity. simpl. lia.
      - unfold multiplicity. simpl. inside_lia. }
    rewrite Hmt. revert Hmul.
    generalize (multiplicity z (map interval_range merged)).
    generalize (multiplicity z (map span_range G)). intros n1 n2.
    inside_lia.
Qed.

(** C2. For a non-empty list of records with [start < end] and a layer
    present in it, with [min_start] and [max_end] the least start and the
    greatest end over all the records: [find_gaps_per_layer] returns, for
    that layer, gaps that together with the merged coverage of the layer
    tile [[min_start, max_end)], and every gap has [len = end - start]. *)
Theorem gaps_and_coverage_tile_route (records : list record) (L : string) :
  records <> [] ->
  (forall r, In r records -> r_start r < r_end r) ->
  has_layer L records ->
  exists (min_start max_end : Z) (result : Dict.t (list span)) (gaps : list span),
    is_min min_start (map r_start records) /\
    is_max max_end (map r_end records) /\
    Dash.find_gaps_per_layer records = Ok result /\
    Dict.get L result = Some gaps /\
    tiles min_start max_end
      (map interval_range (Dash.merge_intervals (layer_intervals L records)) ++
       map span_range gaps) /\
    (forall g, In g gaps -> len g = s_end g - s_start g).
Proof.
  intros Hne Hwf HL. unfold Dash.find_gaps_per_layer.
  destruct (@py_min_spec (map r_start records)) as (lo & -> & Hlo).
  { intros H. apply map_eq_nil in H. contradiction. }
  destruct (@py_max_spec (map r_end records)) as (hi & -> & Hhi).
  { intros H. apply map_eq_nil in H. contradiction. }
  simpl bind.
  assert (Hget : Dict.get L (Dash.group_by_layer records) =
                 Some (layer_intervals L records)).
  { rewrite group_by_layer_get. pose proof (layer_intervals_nonempty HL) as Hn.
    destruct (layer_intervals L records); congruence. }
  assert (Hrange : forall r, In r records -> lo <= r_start r /\ r_end r <= hi).
  { intros r Hr. split.
    - apply (proj2 Hlo). now apply in_map.
    - apply (proj2 Hhi). now apply in_map. }
  assert (Hlohi : lo <= hi).
  { destruct records as [|r0 records']; [congruence|].
    assert (Hr0 : In r0 (r0 :: records')) by now left.
    pose proof (Hrange r0 Hr0). pose proof (Hwf r0 Hr0). lia. }
  destruct (@layer_gaps_tile lo hi (layer_intervals L records) Hlohi) as [Ht Hg].
  { apply Forall_forall. intros i Hi.
    apply layer_intervals_in in Hi. destruct Hi as (r & Hr & _ & ->). simpl.
    pose proof (Hrange r Hr). pose proof (Hwf r Hr). lia. }
  exists lo, hi. eexists. exists (Dash.layer_gaps lo hi (layer_intervals L records)).
  split; [exact Hlo|]. split; [exact Hhi|]. split; [reflexivity|]. split.
  - rewrite (@dict_get_fold_set _ _ (Dash.layer_gaps lo hi) L _
               (group_by_layer_nodup records)).
    now rewrite Hget.
  - split; [exact Ht|]. intros g Hin. rewrite Forall_forall in Hg.
    now destruct (Hg g Hin).
Qed.

Definition scenario_a : list record :=
  [ Rec "L" 100 150 None None; Rec "L" 600 800 None None;
    Rec "L" 1400 1600 None None; Rec "M" 0 10 None None ].

Lemma gaps_and_coverage_tile_route_witness :
  exists (min_start max_end : Z) (result : Dict.t (list span)) (gaps : list span),
    is_min min_start (map r_start scenario_a) /\
    is_max max_end (map r_end scenario_a) /\
    Dash.find_gaps_per_layer scenario_a = Ok result /\
    Dict.get "L" result = Some gaps /\
    tiles min_start max_end
      (map interval_range (Dash.merge_intervals (layer_intervals "L" scenario_a)) ++
       map span_range gaps) /\
    (forall g, In g gaps -> len g = s_end g - s_start g).
Proof.
  apply gaps_and_coverage_tile_route.
  - discriminate.
  - intros r Hr. simpl in Hr.
    repeat (destruct Hr as [<-|Hr]; [simpl; lia|]). contradiction.
  - exists (Rec "L" 100 150 None None). split; [now left|reflexivity].
Defined.

(** ** The overlap detector *)

(** The specification's wording of the detector: the intersections
    [[max(a.start,b.start), min(a.end,b.end))] of all unordered pairs of
    raw intervals of the layer, those with [start < end] kept, merged, each
    with [len = end - start]. *)
Module OverlapSpec.
Fixpoint unordered_pairs {A : Type} (l : list A) : list (A * A) :=
  match l with
  | [] => []
  | a :: l' => map (pair a) l' ++ unordered_pairs l'
  end.

Definition intersection (p : interval * interval) : interval :=
  {| start := Z.max (start (fst p)) (start (snd p));
     end_ := Z.min (end_ (fst p)) (end_ (snd p)) |}.

Definition nonempty (i : interval) : bool := start i <? end_ i.

Definition intersections (intervals : list interval) : list interval :=
  filter nonempty (map intersection (unordered_pairs intervals)).

Definition overlaps (intervals : list interval) : list span :=
  map (fun m => {| s_start := start m; s_end := end_ m; len := end_ m - start m |})
      (Dash.merge_intervals (intersections intervals)).
End OverlapSpec.

Definition overlap_pair (a b : interval) : list interval :=
  if OverlapSpec.nonempty (OverlapSpec.intersection (a, b))
  then [OverlapSpec.intersection (a, b)] else [].

Lemma overlap_of_nth (intervals : list interval) (i j : nat) (a b : interval) :
  nth_error intervals i = Some a -> nth_error intervals j = Some b ->
  Dash.overlap_of intervals i j = overlap_pair a b.
Proof. intros Ha Hb. unfold Dash.overlap_of. now rewrite Ha, Hb. Qed.

Lemma nth_error_middle (A : Type) (p l : list A) (a : A) :
  nth_error (p ++ a :: l) (List.length p) = Some a.
Proof. rewrite nth_error_app2, Nat.sub_diag; [reflexivity|lia]. Qed.

(** The inner loop, for [j] over the positions of a suffix [l]. *)
Lemma inner_loop_suffix (all : list interval) (i : nat) (a : interval) (l : list interval) :
  nth_error all i = Some a ->
  forall q : list interval, all = q ++ l ->
  flat_map (Dash.overlap_of all i) (seq (List.length q) (List.length l)) =
  flat_map (overlap_pair a) l.
Proof.
  intros Ha. induction l as [|b l IH]; intros q Hall; [reflexivity|].
  simpl. rewrite (@overlap_of_nth all i (List.length q) a b Ha).
  2:{ rewrite Hall. apply nth_error_middle. }
  f_equal. specialize (IH (q ++ [b])). rewrite length_app in IH. simpl in IH.
  rewrite Nat.add_1_r in IH. apply IH. now rewrite <- app_assoc.
Qed.

Lemma flat_map_of_map (A B C : Type) (f : B -> list C) (g : A -> B) (l : list A) :
  flat_map f (map g l) = flat_map (fun x => f (g x)) l.
Proof. induction l as [|x l IH]; simpl; [reflexivity|now rewrite IH]. Qed.

(** The outer loop, for [i] over the positions of a suffix [l]. *)
Lemma outer_loop_suffix (all : list interval) (l : list interval) :
  forall p : list interval, all = p ++ l ->
  flat_map (fun i => flat_map (Dash.overlap_of all i)
                       (seq (i + 1) (List.length all - (i + 1))))
           (seq (List.length p) (List.length l)) =
  flat_map (fun '(a, b) => overlap_pair a b) (OverlapSpec.unordered_pairs l).
Proof.
  induction l as [|a l IH]; intros p Hall; [reflexivity|].
  simpl. rewrite flat_map_app. f_equal.
  - rewrite flat_map_of_map.
    change (flat_map (fun b => overlap_pair a b) l) with (flat_map (overlap_pair a) l).
    replace (List.length all - (List.length p + 1))%nat with (List.length l).
    2:{ rewrite Hall, length_app. simpl. lia. }
    replace (List.length p + 1)%nat with (List.length (p ++ [a])).
    2:{ rewrite length_app. reflexivity. }
    apply inner_loop_suffix.
    + rewrite Hall. apply nth_error_middle.
    + now rewrite <- app_assoc.
  - specialize (IH (p ++ [a])). rewrite length_app in IH. simpl in IH.
    rewrite Nat.add_1_r in IH. apply IH. now rewrite <- app_assoc.
Qed.

Lemma filter_map_flat_map (A B : Type) (p : B -> bool) (f : A -> B) (l : list A) :
  filter p (map f l) = flat_map (fun x => if p (f x) then [f x] else []) l.
Proof.
  induction l as [|x l IH]; simpl; [reflexivity|].
  rewrite IH. now destruct (p (f x)).
Qed.

(** The two index loops compute the non-empty intersections of the
    unordered pairs. *)
Lemma pairwise_overlaps_spec (intervals : list interval) :
  Dash.pairwise_overlaps intervals = OverlapSpec.intersections intervals.
Proof.
  unfold Dash.pairwise_overlaps, OverlapSpec.intersections.
  pose proof (@outer_loop_suffix intervals intervals [] eq_refl) as H.
  simpl in H. cbv zeta. rewrite H.
  rewrite filter_map_flat_map. apply flat_map_ext. now intros [a b].
Qed.

Definition scenario_b : list record :=
  [ Rec "L" 0 100 None None; Rec "L" 50 150 None None ].

(** C3. [find_overlaps_within_layer] maps every layer of the records to the
    merge of the non-empty pairwise intersections of its raw intervals, each
    with [len = end - start], and has no entry for another layer; the records
    [("L",0,100)] and [("L",50,150)] have the one overlap [[50,100)] of
    length 50 and a merged coverage of length 150. *)
Theorem find_overlaps_within_layer_spec :
  (forall (records : list record) (L : string),
     has_layer L records ->
     Dict.get L (Dash.find_overlaps_within_layer records) =
     Some (OverlapSpec.overlaps (layer_intervals L records))) /\
  (forall (records : list record) (L : string),
     ~ has_layer L records ->
     Dict.get L (Dash.find_overlaps_within_layer records) = None) /\
  Dash.find_overlaps_within_layer scenario_b =
    [ ("L", [ {| s_start := 50; s_end := 100; len := 50 |} ]) ] /\
  Dash.merged_len (map interval_of scenario_b) = 150.
Proof.
  assert (Hget : forall records L,
            Dict.get L (Dash.find_overlaps_within_layer records) =
            match Dict.get L (Dash.group_by_layer records) with
            | Some ivs => Some (OverlapSpec.overlaps ivs)
            | None => None
            end).
  { intros records L. unfold Dash.find_overlaps_within_layer.
    rewrite (@dict_get_fold_set _ _
               (fun ivs => map Dash.with_len (Dash.merge_intervals (Dash.pairwise_overlaps ivs)))
               L _ (group_by_layer_nodup records)).
    destruct (Dict.get L (Dash.group_by_layer records)); [|reflexivity].
    now rewrite pairwise_overlaps_spec. }
  split; [|split; [|split]].
  - intros records L HL. rewrite Hget, group_by_layer_get.
    pose proof (layer_intervals_nonempty HL) as Hn.
    destruct (layer_intervals L records); congruence.
  - intros records L HL. rewrite Hget, group_by_layer_get.
    now rewrite (layer_intervals_empty HL).
  - reflexivity.
  - reflexivity.
Qed.

Lemma find_overlaps_within_layer_spec_witness :
  Dict.get "L" (Dash.find_overlaps_within_layer scenario_b) =
    Some (OverlapSpec.overlaps (layer_intervals "L" scenario_b)) /\
  Dict.get "M" (Dash.find_overlaps_within_layer scenario_b) = None.
Proof.
  split.
  - apply (proj1 find_overlaps_within_layer_spec).
    exists (Rec "L" 0 100 None None). split; [now left|reflexivity].
  - apply (proj1 (proj2 find_overlaps_within_layer_spec)).
    intros (r & Hr & HL). simpl in Hr.
    repeat (destruct Hr as [<-|Hr]; [discriminate|]). contradiction.
Defined.

(** ** The record filter *)

Definition is_empty {A : Type} (l : list A) : bool :=
  match l with [] => true | _ :: _ => false end.

(** The filtering contract as the specification words it: a tag passes when
    it is absent, or the filter list is empty, or it is in the filter list. *)
Definition passes_as_specified (filter : list string) (tag : option string) : bool :=
  match tag with
  | None => true
  | Some t => is_empty filter || str_in t filter
  end.

(** What the code does: an empty tag counts as an absent one. *)
Definition passes (filter : list string) (tag : option string) : bool :=
  match tag with
  | None => true
  | Some t => String.eqb t "" || is_empty filter || str_in t filter
  end.

Lemma skipped_passes (filter : list string) (tag : option string) :
  Dash.skipped filter tag = negb (passes filter tag).
Proof.
  unfold Dash.skipped, passes, truthy.
  destruct filter as [|x filter]; destruct tag as [t|]; simpl; trivial;
    destruct (String.eqb t ""); simpl; trivial;
    now rewrite negb_involutive.
Qed.

Lemma filter_records_fold (fb fm : list string) (records : list record) :
  forall out : list record,
  fold_left
    (fun out r =>
       if Dash.skipped fb (bill r) then out
       else if Dash.skipped fm (month r) then out
       else out ++ [r])
    records out =
  out ++ filter (fun r => passes fb (bill r) && passes fm (month r)) records.
Proof.
  induction records as [|r records IH]; intros out; simpl.
  - now rewrite app_nil_r.
  - rewrite IH, !skipped_passes.
    destruct (passes fb (bill r)); simpl; trivial.
    destruct (passes fm (month r)); simpl; trivial.
    now rewrite <- app_assoc.
Qed.

(** C7, as stated, fails: a record whose [bill] is the empty string is kept
    by the filter ["B1"], although its tag is present and not in the list. *)
Lemma filter_records_keeps_empty_tag :
  ~ (forall (records : list record) (filter_bills filter_months : list string),
       Dash.filter_records records filter_bills filter_months =
       filter (fun r => passes_as_specified filter_bills (bill r) &&
                        passes_as_specified filter_months (month r)) records).
Proof.
  intros H. specialize (H [Rec "L" 0 10 (Some "") None] ["B1"] []).
  vm_compute in H. discriminate.
Qed.

(** C7, amended. [filter_records] keeps, in order, exactly the records that
    pass both axes, where a record passes an axis if its tag is absent or the
    empty string, or the filter list of the axis is empty, or the tag is in
    the list; filtering by bill ["B1"] keeps exactly the records without a
    bill tag, with an empty one, or with the tag ["B1"]. *)
Theorem filter_records_spec :
  (forall (records : list record) (filter_bills filter_months : list string),
     Dash.filter_records records filter_bills filter_months =
     filter (fun r => passes filter_bills (bill r) && passes filter_months (month r))
            records) /\
  (forall (records : list record) (r : record),
     In r (Dash.filter_records records ["B1"] []) <->
     In r records /\ (bill r = None \/ bill r = Some "" \/ bill r = Some "B1")).
Proof.
  assert (H : forall records fb fm,
            Dash.filter_records records fb fm =
            filter (fun r => passes fb (bill r) && passes fm (month r)) records).
  { intros. unfold Dash.filter_records. now rewrite filter_records_fold. }
  split; [exact H|].
  intros records r. rewrite H, filter_In.
  assert (Hm : passes [] (month r) = true).
  { unfold passes. destruct (month r); trivial. simpl. now rewrite orb_true_r. }
  rewrite Hm, andb_true_r. unfold passes, str_in. simpl.
  destruct (bill r) as [b|].
  - rewrite !orb_false_r. rewrite orb_true_iff, !String.eqb_eq.
    split; intros [Hin Hb]; (split; [exact Hin|]).
    + destruct Hb as [->| ->]; auto.
    + destruct Hb as [Hb|[Hb|Hb]]; try discriminate; injection Hb; auto.
  - intuition.
Qed.

Lemma filter_records_spec_witness :
  In (Rec "L" 0 10 None None)
     (Dash.filter_records [Rec "L" 0 10 None None; Rec "L" 10 20 (Some "B2") None] ["B1"] []).
Proof.
  apply (proj2 filter_records_spec). split; [now left|now left].
Defined.

(** ** The progress aggregator *)

Lemma dict_set_set (V : Type) (k : string) (v v' : V) (d : Dict.t V) :
  Dict.set k v (Dict.set k v' d) = Dict.set k v d.
Proof.
  induction d as [|[k0 v0] d IH]; simpl.
  - now rewrite String.eqb_refl.
  - destruct (String.eqb k0 k) eqn:E; simpl; rewrite E; [reflexivity|now rewrite IH].
Qed.

Lemma dict_set_fresh (V : Type) (k : string) (v : V) (d : Dict.t V) :
  ~ In k (Dict.keys d) -> Dict.set k v d = d ++ [(k, v)].
Proof.
  unfold Dict.keys. induction d as [|[k0 v0] d IH]; simpl; intros Hn; [reflexivity|].
  destruct (String.eqb k0 k) eqn:E.
  - apply String.eqb_eq in E. tauto.
  - rewrite IH; tauto.
Qed.

Lemma dict_in_get (V : Type) (k : string) (v : V) (d : Dict.t V) :
  NoDup (Dict.keys d) -> In (k, v) d -> Dict.get k d = Some v.
Proof.
  unfold Dict.keys. induction d as [|[k0 v0] d IH]; simpl; intros Hn Hin; [contradiction|].
  inversion Hn as [|? ? Hnin Hn']; subst. destruct Hin as [Heq|Hin].
  - injection Heq as -> ->. now rewrite String.eqb_refl.
  - destruct (String.eqb k0 k) eqn:E; [|auto].
    apply String.eqb_eq in E. subst k0. exfalso. apply Hnin.
    change k with (fst (k, v)). now apply in_map.
Qed.

Lemma dict_get_in (V : Type) (k : string) (v : V) (d : Dict.t V) :
  Dict.get k d = Some v -> In (k, v) d.
Proof.
  induction d as [|[k0 v0] d IH]; simpl; [discriminate|].
  destruct (String.eqb k0 k) eqn:E; [|auto].
  apply String.eqb_eq in E. intros [= ->]. subst. now left.
Qed.

(** [for k, v in d.items(): result[k] = f(v)] builds the entries of [d] in
    order, with [f] applied to the values. *)
Lemma dict_fold_set_map (V W : Type) (f : V -> W) (d : Dict.t V) :
  NoDup (Dict.keys d) ->
  forall acc : Dict.t W,
  (forall k, In k (Dict.keys d) -> ~ In k (Dict.keys acc)) ->
  fold_left (fun result '(k, v) => Dict.set k (f v) result) d acc =
  acc ++ map (fun '(k, v) => (k, f v)) d.
Proof.
  induction d as [|[k v] d IH]; simpl; intros Hn acc Hd.
  - now rewrite app_nil_r.
  - inversion Hn as [|? ? Hnin Hn']; subst.
    rewrite dict_set_fresh by (apply Hd; now left).
    rewrite IH; trivial.
    + now rewrite <- app_assoc.
    + intros k0 Hk0 Hin. unfold Dict.keys in Hin. rewrite map_app in Hin.
      apply in_app_or in Hin. destruct Hin as [Hin|[<-|[]]].
      * apply (Hd k0); [now right|exact Hin].
      * now apply Hnin.
Qed.

Definition pct_val (route_extent x : Z) : pct_value :=
  if route_extent =? 0 then PctZero else PctOf x route_extent.

(** The guard makes the division total. *)
Lemma pct_ok (x route_extent : Z) : Dash.pct x route_extent = Ok (pct_val route_extent x).
Proof.
  unfold Dash.pct, pct_val, truediv.
  destruct (route_extent =? 0); reflexivity.
Qed.

(** The composite key that a record contributes to, if any. *)
Definition bill_key (r : record) : option string :=
  if truthy (bill r) then
    match bill r with
    | Some b => Some (b ++ "|" ++ layer r)%string
    | None => None
    end
  else None.

Definition bill_step (by_bill_layer : Dict.t Z) (r : record) : Dict.t Z :=
  match bill_key r with
  | Some key =>
      let old := match Dict.get key by_bill_layer with Some n => n | None => 0 end in
      Dict.set key (old + (r_end r - r_start r)) by_bill_layer
  | None => by_bill_layer
  end.

Lemma progress_step_split (d1 : Dict.t (list interval)) (d2 : Dict.t Z) (r : record) :
  Dash.progress_step (d1, d2) r = (Dash.group_step d1 r, bill_step d2 r).
Proof.
  unfold Dash.progress_step, Dash.group_step, bill_step, bill_key, Dict.mem.
  f_equal.
  - destruct (Dict.get (layer r) d1) as [l|] eqn:E; simpl.
    + now rewrite E.
    + now rewrite dict_get_set_eq, dict_set_set.
  - destruct (truthy (bill r)); [|reflexivity]. now destruct (bill r).
Qed.

Lemma progress_fold_split (records : list record) :
  forall (d1 : Dict.t (list interval)) (d2 : Dict.t Z),
  fold_left Dash.progress_step records (d1, d2) =
  (fold_left Dash.group_step records d1, fold_left bill_step records d2).
Proof.
  induction records as [|r records IH]; intros d1 d2; [reflexivity|].
  change (fold_left Dash.progress_step (r :: records) (d1, d2))
    with (fold_left Dash.progress_step records (Dash.progress_step (d1, d2) r)).
  rewrite progress_step_split, IH. reflexivity.
Qed.

Definition by_bill_layer_of (records : list record) : Dict.t Z :=
  fold_left bill_step records Dict.empty.

Lemma sum_Z_from (l : list Z) : forall a, fold_left Z.add l a = a + sum_Z l.
Proof.
  unfold sum_Z. induction l as [|x l IH]; intros a; simpl; [lia|].
  rewrite (IH (a + x)), (IH x). lia.
Qed.

Lemma sum_Z_cons (x : Z) (l : list Z) : sum_Z (x :: l) = x + sum_Z l.
Proof. unfold sum_Z. simpl. apply sum_Z_from. Qed.

(** The records that contribute to a key, and the sum of their raw
    (unmerged) lengths. *)
Definition billed (key : string) (records : list record) : list record :=
  filter (fun r => match bill_key r with
                   | Some k => String.eqb k key
                   | None => false
                   end) records.

Definition raw_len (records : list record) : Z :=
  sum_Z (map (fun r => r_end r - r_start r) records).

Lemma bill_fold_get (key : string) (records : list record) :
  forall d : Dict.t Z,
  Dict.get key (fold_left bill_step records d) =
  match Dict.get key d, billed key records with
  | Some n, rs => Some (n + raw_len rs)
  | None, [] => None
  | None, rs => Some (raw_len rs)
  end.
Proof.
  unfold billed, raw_len.
  induction records as [|r records IH]; intros d; simpl.
  - destruct (Dict.get key d); [f_equal; unfold sum_Z; simpl; lia|reflexivity].
  - rewrite IH. unfold bill_step. destruct (bill_key r) as [k|]; [|reflexivity].
    destruct (String.eqb k key) eqn:E.
    + apply String.eqb_eq in E. subst k. rewrite dict_get_set_eq. simpl.
      rewrite sum_Z_cons. destruct (Dict.get key d); f_equal; lia.
    + apply String.eqb_neq in E. now rewrite (dict_get_set_neq _ _ E).
Qed.

Lemma bill_fold_nodup (records : list record) :
  forall d : Dict.t Z,
  NoDup (Dict.keys d) -> NoDup (Dict.keys (fold_left bill_step records d)).
Proof.
  induction records as [|r records IH]; intros d Hn; simpl; [exact Hn|].
  apply IH. unfold bill_step. destruct (bill_key r); [|exact Hn].
  now apply dict_set_nodup.
Qed.

(** An entry of [by_bill_layer] holds the raw length of the records that
    contribute to its key, and there is such a record. *)
Lemma by_bill_layer_entry (records : list record) (key : string) (ln : Z) :
  In (key, ln) (by_bill_layer_of records) ->
  billed key records <> [] /\ ln = raw_len (billed key records).
Proof.
  intros Hin. apply dict_in_get in Hin; [|apply bill_fold_nodup; constructor].
  unfold by_bill_layer_of in Hin. rewrite bill_fold_get in Hin. simpl in Hin.
  destruct (billed key records); [discriminate|]. injection Hin as <-.
  split; [discriminate|reflexivity].
Qed.




Lemma split_first_join_some (sep : ascii) (b l : string) :
  exists b' l', split_first sep (b ++ String sep l) = Some (b', l').
Proof.
  induction b as [|c b IH]; simpl.
  - rewrite Ascii.eqb_refl. eauto.
  - destruct (Ascii.eqb c sep); [eauto|].
    destruct IH as (b' & l' & ->). eauto.
Qed.

Lemma bill_key_splits (r : record) (key : string) :
  bill_key r = Some key -> exists b l, split_first "|"%char key = Some (b, l).
Proof.
  unfold bill_key. destruct (truthy (bill r)); [|discriminate].
  destruct (bill r) as [b|]; [|discriminate]. intros [= <-].
  apply split_first_join_some.
Qed.

Lemma billed_in (key : string) (records : list record) (r : record) :
  In r (billed key records) <-> In r records /\ bill_key r = Some key.
Proof.
  unfold billed. rewrite filter_In. destruct (bill_key r) as [k|].
  - rewrite String.eqb_eq. split; intros [H1 H2]; split; congruence.
  - split; intros [H1 H2]; discriminate.
Qed.

Definition layer_entry (route_extent : Z) (intervals : list interval) : layer_progress :=
  {| lp_len := Dash.merged_len intervals;
     lp_pct := pct_val route_extent (Dash.merged_len intervals) |}.

Lemma per_layer_loop_ok (route_extent : Z) (items : list (string * list interval)) :
  forall acc : Dict.t layer_progress,
  Dash.per_layer_loop route_extent items acc =
  Ok (fold_left (fun result '(k, v) => Dict.set k (layer_entry route_extent v) result)
                items acc).
Proof.
  induction items as [|[k v] items IH]; intros acc; simpl; [reflexivity|].
  rewrite pct_ok. simpl. apply IH.
Qed.

(** An entry of [per_layer_per_bill] made from an item of [by_bill_layer]. *)
Definition entry_of (route_extent : Z) (item : string * Z) (entry : bill_progress) : Prop :=
  split_first "|"%char (fst item) = Some (bp_bill entry, bp_layer entry) /\
  bp_len entry = snd item /\
  bp_pct entry = pct_val route_extent (snd item).

Lemma per_bill_loop_ok (route_extent : Z) (items : list (string * Z)) :
  (forall item, In item items ->
     exists b l, split_first "|"%char (fst item) = Some (b, l)) ->
  forall acc : list bill_progress,
  exists entries,
    Dash.per_bill_loop route_extent items acc = Ok (acc ++ entries) /\
    Forall2 (entry_of route_extent) items entries.
Proof.
  induction items as [|[key ln] items IH]; intros Hsplit acc; simpl.
  - exists []. rewrite app_nil_r. split; [reflexivity|constructor].
  - destruct (Hsplit (key, ln)) as (b & l & Hs); [now left|]. simpl in Hs.
    rewrite Hs, pct_ok. simpl.
    destruct (IH (fun item H => Hsplit item (or_intror H))
                 (acc ++ [ {| bp_bill := b; bp_layer := l; bp_len := ln;
                              bp_pct := pct_val route_extent ln |} ]))
      as (entries & Hloop & Hall).
    eexists (_ :: entries). split.
    + rewrite Hloop. now rewrite <- app_assoc.
    + constructor; [|exact Hall]. unfold entry_of. simpl. auto.
Qed.

Lemma by_bill_layer_splits (records : list record) (item : string * Z) :
  In item (by_bill_layer_of records) ->
  exists b l, split_first "|"%char (fst item) = Some (b, l).
Proof.
  destruct item as [key ln]. intros Hin. simpl.
  destruct (@by_bill_layer_entry records key ln Hin) as [Hne _].
  destruct (billed key records) as [|r rs] eqn:E; [congruence|].
  assert (Hr : In r (billed key records)) by (rewrite E; now left).
  apply billed_in in Hr. destruct Hr as [_ Hk]. exact (@bill_key_splits r key Hk).
Qed.

(** [compute_progress] raises nothing, whatever the route extent, and its
    result is the following. *)
Lemma compute_progress_ok (records : list record) (extent : Z) :
  exists entries,
    Forall2 (entry_of extent) (by_bill_layer_of records) entries /\
    Dash.compute_progress records extent =
    Ok {| route_extent := extent;
          overall_len := Dash.merged_len (map interval_of records);
          overall_pct := pct_val extent (Dash.merged_len (map interval_of records));
          per_layer := map (fun '(k, v) => (k, layer_entry extent v))
                           (Dash.group_by_layer records);
          per_layer_per_bill := sort_by bill_progress_leb entries |}.
Proof.
  unfold Dash.compute_progress. rewrite progress_fold_split.
  rewrite per_layer_loop_ok. simpl bind. rewrite pct_ok. simpl bind.
  destruct (@per_bill_loop_ok extent (by_bill_layer_of records)
              (@by_bill_layer_splits records) []) as (entries & Hloop & Hall).
  exists entries. split; [exact Hall|].
  unfold by_bill_layer_of in Hloop. rewrite Hloop. simpl.
  rewrite dict_fold_set_map; [reflexivity|apply group_by_layer_nodup|auto].
Qed.















(** ** The stretch parser *)

Lemma take_while_forall (A : Type) (p : A -> bool) (l : list A) :
  Forall (fun x => p x = true) (take_while p l).
Proof.
  induction l as [|x l IH]; simpl; [constructor|].
  destruct (p x) eqn:E; constructor; auto.
Qed.

Lemma int_of_digits_from (l : list ascii) :
  Forall (fun c => is_digit c = true) l ->
  forall n, 0 <= n ->
  0 <= fold_left (fun n c => 10 * n + (Z.of_N (N_of_ascii c) - 48)) l n.
Proof.
  induction 1 as [|c l Hc Hl IH]; intros n Hn; [exact Hn|].
  cbn [fold_left]. apply IH. unfold is_digit in Hc. apply andb_true_iff in Hc.
  destruct Hc as [Hc _]. apply N.leb_le in Hc. lia.
Qed.

Lemma int_of_digits_nonneg (l : list ascii) :
  Forall (fun c => is_digit c = true) l -> 0 <= int_of_digits l.
Proof. intros H. unfold int_of_digits. apply int_of_digits_from; [exact H|lia]. Qed.




(** ** Sets and the orders of the sort keys *)

Section SetAdd.
Variable A : Type.
Variable eqb : A -> A -> bool.
Hypothesis eqb_eq : forall x y, eqb x y = true <-> x = y.

Lemma existsb_eqb_in (x : A) (s : list A) : existsb (eqb x) s = true <-> In x s.
Proof.
  rewrite existsb_exists. split.
  - intros (y & Hy & He). apply eqb_eq in He. now subst.
  - intros Hin. exists x. split; [exact Hin|now apply eqb_eq].
Qed.

Lemma set_add_in (x y : A) (s : list A) : In x (set_add eqb y s) <-> x = y \/ In x s.
Proof.
  unfold set_add. destruct (existsb (eqb y) s) eqn:E.
  - apply existsb_eqb_in in E. split; [auto|]. intros [->|H]; trivial.
  - rewrite in_app_iff. simpl. intuition.
Qed.

Lemma set_add_nodup (y : A) (s : list A) : NoDup s -> NoDup (set_add eqb y s).
Proof.
  intros Hn. unfold set_add. destruct (existsb (eqb y) s) eqn:E; [exact Hn|].
  assert (Hnin : ~ In y s).
  { intros Hin. apply existsb_eqb_in in Hin. congruence. }
  clear E. induction Hn as [|a s Ha Hn IH]; simpl.
  - repeat constructor. simpl. tauto.
  - constructor.
    + rewrite in_app_iff. simpl. intros [H|[H|[]]]; [auto|].
      apply Hnin. now left.
    + apply IH. intros H. apply Hnin. now right.
Qed.


End SetAdd.

(** The order of Python strings, character by character. *)
Definition str_lt (a b : string) : Prop := String.compare a b = Lt.

Lemma str_lt_trans (a b c : string) : str_lt a b -> str_lt b c -> str_lt a c.
Proof.
  unfold str_lt. intros H1 H2.
  apply OrderedTypeEx.String_as_OT.cmp_lt in H1, H2.
  apply OrderedTypeEx.String_as_OT.cmp_lt.
  exact (OrderedTypeEx.String_as_OT.lt_trans _ _ _ H1 H2).
Qed.

Lemma str_compare_refl (a : string) : String.compare a a = Eq.
Proof.
  induction a as [|c a IH]; simpl; [reflexivity|].
  unfold Ascii.compare. now rewrite N.compare_refl.
Qed.

Lemma str_leb_iff (a b : string) : String.leb a b = true <-> str_lt a b \/ a = b.
Proof.
  unfold String.leb, str_lt. split.
  - destruct (String.compare a b) eqn:E; [|auto|discriminate].
    apply String.compare_eq_iff in E. auto.
  - intros [->| ->]; [reflexivity|]. now rewrite str_compare_refl.
Qed.







(** ** The chunk segmenter *)































Lemma sort_by_strict (A : Type) (leb : A -> A -> bool) (lt : A -> A -> Prop) (l : list A) :
  (forall x y, leb x y = false -> leb y x = true) ->
  (forall x y, leb x y = true -> x <> y -> lt x y) ->
  (forall x y z, lt x y -> lt y z -> lt x z) ->
  NoDup l -> StronglySorted lt (sort_by leb l).
Proof.
  intros Htot Hlt Htrans Hn. apply Sorted_StronglySorted; [exact Htrans|].
  apply Sorted_NoDup_strict with (le := fun x y => leb x y = true).
  - exact Hlt.
  - now apply sort_by_sorted.
  - eapply Permutation_NoDup; [apply sort_by_perm|exact Hn].
Qed.




(** ** The two front ends *)

(** C8. Each engine function of [app_dash.py] returns, on every input, what
    the function of the same name of [app_streamlit.py] returns. *)
Theorem front_ends_agree :
  (forall intervals : list interval,
     Dash.merge_intervals intervals = Streamlit.merge_intervals intervals) /\
  (forall records : list record,
     Dash.find_overlaps_within_layer records =
     Streamlit.find_overlaps_within_layer records) /\
  (forall records : list record,
     Dash.find_gaps_per_layer records = Streamlit.find_gaps_per_layer records) /\
  (forall records : list record,
     Dash.build_stretch_segments records = Streamlit.build_stretch_segments records) /\
  (forall (records : list record) (filter_bills filter_months : list string),
     Dash.filter_records records filter_bills filter_months =
     Streamlit.filter_records records filter_bills filter_months) /\
  (forall (records : list record) (extent : Z),
     Dash.compute_progress records extent = Streamlit.compute_progress records extent).
Proof.
  repeat split.
Qed.

(* ================================================================== *)
(** * Further properties of the engine *)

(** ** What the merger keeps *)

(** The points of the chainage axis that a list of intervals covers. *)
Definition covered (z : Z) (l : list interval) : Prop :=
  exists i, In i l /\ start i <= z < end_ i.

Lemma covered_nil (z : Z) : ~ covered z [].
Proof. intros (i & [] & _). Qed.

Lemma covered_app (z : Z) (l1 l2 : list interval) :
  covered z (l1 ++ l2) <-> covered z l1 \/ covered z l2.
Proof.
  unfold covered. split.
  - intros (i & Hin & Hz). apply in_app_or in Hin. destruct Hin; eauto.
  - intros [(i & Hin & Hz)|(i & Hin & Hz)]; exists i; rewrite in_app_iff; auto.
Qed.

Lemma covered_one (z : Z) (a : interval) : covered z [a] <-> start a <= z < end_ a.
Proof.
  unfold covered. split.
  - intros (i & [<-|[]] & Hz). exact Hz.
  - intros Hz. exists a. split; [now left|exact Hz].
Qed.

Lemma covered_cons (z : Z) (a : interval) (l : list interval) :
  covered z (a :: l) <-> start a <= z < end_ a \/ covered z l.
Proof. change (a :: l) with ([a] ++ l). now rewrite covered_app, covered_one. Qed.

Lemma covered_perm (z : Z) (l l' : list interval) :
  Permutation l l' -> (covered z l <-> covered z l').
Proof.
  intros Hp. unfold covered. split; intros (i & Hin & Hz); exists i; split; trivial.
  - now apply (Permutation_in _ Hp).
  - now apply (Permutation_in _ (Permutation_sym Hp)).
Qed.

Lemma merge_loop_covered (z : Z) (rest : list interval) :
  forall (l : list interval) (a : interval),
  StronglySorted start_le (a :: rest) ->
  (covered z (fold_left Dash.merge_step rest (l ++ [a])) <->
   covered z (l ++ [a]) \/ covered z rest).
Proof.
  induction rest as [|cur rest IH]; intros l a Hs.
  - simpl. pose proof (@covered_nil z). tauto.
  - cbn [fold_left]. rewrite merge_step_snoc.
    apply StronglySorted_inv in Hs. destruct Hs as [Hs Ha].
    pose proof Hs as Hs'. apply StronglySorted_inv in Hs'. destruct Hs' as [Hs' Hcur].
    assert (Hac : start a <= start cur) by (inversion Ha; assumption).
    rewrite (covered_cons z cur rest).
    destruct (Z.leb_spec (start cur) (end_ a)) as [Hj|Hj].
    + rewrite IH.
      * rewrite !covered_app, !covered_one. simpl. intuition lia.
      * constructor; [exact Hs'|]. simpl. unfold start_le. simpl.
        inversion Ha; assumption.
    + replace (l ++ [a; cur]) with ((l ++ [a]) ++ [cur]) by now rewrite <- app_assoc.
      rewrite (IH (l ++ [a]) cur Hs).
      rewrite (covered_app z (l ++ [a]) [cur]), covered_one. tauto.
Qed.

Lemma sort_by_start_sorted (intervals : list interval) :
  StronglySorted start_le (sort_by interval_leb intervals).
Proof.
  apply StronglySorted_impl with (R := fun x y => interval_leb x y = true).
  - unfold interval_leb, start_le. intros x y. apply Z.leb_le.
  - apply sort_by_strongly_sorted; unfold interval_leb; intros; lia.
Qed.

Lemma merge_covered (intervals : list interval) (z : Z) :
  covered z (Dash.merge_intervals intervals) <-> covered z intervals.
Proof.
  unfold Dash.merge_intervals. destruct intervals as [|i0 intervals']; [tauto|].
  set (intervals := i0 :: intervals').
  rewrite (covered_perm z (sort_by_perm interval_leb intervals)).
  pose proof (sort_by_start_sorted intervals) as Hs.
  destruct (sort_by interval_leb intervals) as [|first rest]; [tauto|].
  rewrite (@merge_loop_covered z rest [] first Hs). simpl.
  rewrite (covered_cons z first rest), covered_one. tauto.
Qed.

(** X1. [merge_intervals] covers exactly the points that its input covers,
    whatever the input (reversed or empty intervals included). *)
Theorem merge_intervals_same_coverage (intervals : list interval) (z : Z) :
  covered z (Dash.merge_intervals intervals) <-> covered z intervals.
Proof. apply merge_covered. Qed.

(** Sorting a sorted list changes nothing. *)
Lemma sort_by_of_sorted (A : Type) (leb : A -> A -> bool) (l : list A) :
  Sorted (fun x y => leb x y = true) l -> sort_by leb l = l.
Proof.
  induction 1 as [|x l Hs IH Hd]; simpl; [reflexivity|].
  rewrite IH. destruct Hd as [|y l Hxy]; simpl; [reflexivity|now rewrite Hxy].
Qed.

Lemma merge_loop_apart (rest : list interval) :
  forall (l : list interval) (a : interval),
  Sorted apart (a :: rest) ->
  fold_left Dash.merge_step rest (l ++ [a]) = l ++ a :: rest.
Proof.
  induction rest as [|cur rest IH]; intros l a Hs; [reflexivity|].
  cbn [fold_left]. rewrite merge_step_snoc.
  inversion Hs as [|? ? Hs' Hd]; subst. inversion Hd as [|? ? Hac]; subst.
  unfold apart in Hac. destruct (Z.leb_spec (start cur) (end_ a)); [lia|].
  replace (l ++ [a; cur]) with ((l ++ [a]) ++ [cur]) by now rewrite <- app_assoc.
  rewrite (IH (l ++ [a]) cur Hs'). now rewrite <- app_assoc.
Qed.

(** X2. Merging is idempotent: a merged list is left as it is. *)
Theorem merge_intervals_idempotent (intervals : list interval) :
  Dash.merge_intervals (Dash.merge_intervals intervals) = Dash.merge_intervals intervals.
Proof.
  destruct (@merge_intervals_inv (fun _ => True) (fun _ _ _ _ _ _ => I) intervals)
    as (Hap & Hst & _).
  { apply Forall_forall. trivial. }
  set (m := Dash.merge_intervals intervals) in *.
  unfold Dash.merge_intervals at 1. destruct m as [|first rest] eqn:E; [reflexivity|].
  rewrite sort_by_of_sorted.
  - exact (@merge_loop_apart rest [] first Hap).
  - eapply Sorted_impl; [|exact Hst]. unfold start_le, interval_leb.
    intros x y. apply Z.leb_le.
Qed.

(** The summed length of a list of intervals. *)
Definition total_len (l : list interval) : Z :=
  sum_Z (map (fun m => end_ m - start m) l).

Lemma sum_Z_app (l1 l2 : list Z) : sum_Z (l1 ++ l2) = sum_Z l1 + sum_Z l2.
Proof.
  induction l1 as [|x l1 IH]; simpl; [reflexivity|].
  rewrite !sum_Z_cons, IH. lia.
Qed.

Lemma sum_Z_perm (l l' : list Z) : Permutation l l' -> sum_Z l = sum_Z l'.
Proof.
  induction 1 as [|x l l' _ IH|x y l|l l' l'' _ IH1 _ IH2];
    rewrite ?sum_Z_cons; try lia.
Qed.

Lemma total_len_app (l1 l2 : list interval) :
  total_len (l1 ++ l2) = total_len l1 + total_len l2.
Proof. unfold total_len. now rewrite map_app, sum_Z_app. Qed.

Lemma total_len_one (a : interval) : total_len [a] = end_ a - start a.
Proof. unfold total_len. simpl. rewrite sum_Z_cons. unfold sum_Z. simpl. lia. Qed.

Lemma total_len_cons (a : interval) (l : list interval) :
  total_len (a :: l) = (end_ a - start a) + total_len l.
Proof. unfold total_len. simpl. now rewrite sum_Z_cons. Qed.

Definition ordered (i : interval) : Prop := start i <= end_ i.

Lemma merge_loop_len (rest : list interval) :
  forall (l : list interval) (a : interval),
  ordered a -> Forall ordered rest ->
  total_len (fold_left Dash.merge_step rest (l ++ [a])) <=
  total_len (l ++ [a]) + total_len rest.
Proof.
  unfold ordered.
  induction rest as [|cur rest IH]; intros l a Ha Hr.
  - simpl. unfold total_len at 3. unfold sum_Z. simpl. lia.
  - inversion Hr as [|? ? Hc Hr']; subst.
    cbn [fold_left]. rewrite merge_step_snoc, total_len_cons.
    destruct (Z.leb_spec (start cur) (end_ a)) as [Hj|Hj].
    + eapply Z.le_trans; [apply IH; [simpl; lia|exact Hr']|].
      rewrite !total_len_app, !total_len_one. simpl. lia.
    + replace (l ++ [a; cur]) with ((l ++ [a]) ++ [cur]) by now rewrite <- app_assoc.
      eapply Z.le_trans; [apply IH; [exact Hc|exact Hr']|].
      rewrite (total_len_app (l ++ [a]) [cur]), total_len_one. lia.
Qed.

Lemma merged_len_le_total (intervals : list interval) :
  Forall ordered intervals -> Dash.merged_len intervals <= total_len intervals.
Proof.
  intros Hord. unfold Dash.merged_len. fold (total_len (Dash.merge_intervals intervals)).
  unfold Dash.merge_intervals. destruct intervals as [|i0 intervals']; [lia|].
  set (intervals := i0 :: intervals') in *.
  assert (Hlen : total_len (sort_by interval_leb intervals) = total_len intervals).
  { unfold total_len. apply sum_Z_perm, Permutation_map, Permutation_sym, sort_by_perm. }
  assert (Hs : Forall ordered (sort_by interval_leb intervals)).
  { rewrite Forall_forall in *. intros x Hx. apply Hord. now apply sort_by_in in Hx. }
  destruct (sort_by interval_leb intervals) as [|first rest]; [rewrite <- Hlen; lia|].
  inversion Hs; subst. rewrite <- Hlen, total_len_cons.
  eapply Z.le_trans; [apply (@merge_loop_len rest [] first); assumption|].
  simpl. rewrite total_len_one. lia.
Qed.

(** X3. For intervals with [start <= end], the merged length is at most the
    sum of the lengths of the intervals. *)
Theorem merged_len_at_most_raw (intervals : list interval) :
  Forall ordered intervals -> Dash.merged_len intervals <= total_len intervals.
Proof. apply merged_len_le_total. Qed.

Lemma merged_len_at_most_raw_witness :
  Dash.merged_len [Interval 0 100; Interval 50 150] <=
  total_len [Interval 0 100; Interval 50 150].
Proof.
  apply merged_len_at_most_raw. repeat constructor; unfold ordered; simpl; lia.
Defined.

(** ** What the overlap detector reports *)

Definition span_covered (z : Z) (l : list span) : Prop :=
  exists g, In g l /\ s_start g <= z < s_end g.

Definition within (z : Z) (i : interval) : Prop := start i <= z < end_ i.

(** Two records of the list, at different positions, both contain [z]. *)
Definition doubly_covered (z : Z) (l : list interval) : Prop :=
  exists (i j : nat) (a b : interval),
    (i < j)%nat /\ nth_error l i = Some a /\ nth_error l j = Some b /\
    within z a /\ within z b.

Lemma span_covered_with_len (z : Z) (l : list interval) :
  span_covered z (map Dash.with_len l) <-> covered z l.
Proof.
  unfold span_covered, covered. split.
  - intros (g & Hin & Hz). apply in_map_iff in Hin. destruct Hin as (i & <- & Hi).
    exists i. split; [exact Hi|exact Hz].
  - intros (i & Hi & Hz). exists (Dash.with_len i). split; [now apply in_map|exact Hz].
Qed.

Lemma pairwise_overlaps_in (l : list interval) (x : interval) :
  In x (Dash.pairwise_overlaps l) <->
  exists (i j : nat) (a b : interval),
    (i < j)%nat /\ nth_error l i = Some a /\ nth_error l j = Some b /\
    Z.max (start a) (start b) < Z.min (end_ a) (end_ b) /\
    x = {| start := Z.max (start a) (start b); end_ := Z.min (end_ a) (end_ b) |}.
Proof.
  unfold Dash.pairwise_overlaps. cbv zeta. rewrite in_flat_map. split.
  - intros (i & Hi & Hx). apply in_flat_map in Hx. destruct Hx as (j & Hj & Hx).
    apply in_seq in Hi, Hj. unfold Dash.overlap_of in Hx.
    destruct (nth_error l i) as [a|] eqn:Ea; [|contradiction].
    destruct (nth_error l j) as [b|] eqn:Eb; [|contradiction].
    destruct (Z.ltb_spec (Z.max (start a) (start b)) (Z.min (end_ a) (end_ b)));
      [|contradiction].
    destruct Hx as [<-|[]]. exists i, j, a, b. repeat split; trivial. lia.
  - intros (i & j & a & b & Hij & Ha & Hb & Hne & ->).
    assert (Hjn : (j < List.length l)%nat).
    { apply nth_error_Some. congruence. }
    exists i. split; [apply in_seq; lia|].
    apply in_flat_map. exists j. split; [apply in_seq; lia|].
    unfold Dash.overlap_of. rewrite Ha, Hb.
    destruct (Z.ltb_spec (Z.max (start a) (start b)) (Z.min (end_ a) (end_ b))); [|lia].
    now left.
Qed.

Lemma pairwise_overlaps_covered (l : list interval) (z : Z) :
  covered z (Dash.pairwise_overlaps l) <-> doubly_covered z l.
Proof.
  unfold covered, doubly_covered, within. split.
  - intros (x & Hx & Hz). apply pairwise_overlaps_in in Hx.
    destruct Hx as (i & j & a & b & Hij & Ha & Hb & Hne & ->). simpl in Hz.
    exists i, j, a, b. repeat split; trivial; lia.
  - intros (i & j & a & b & Hij & Ha & Hb & Hza & Hzb).
    eexists. split.
    + apply pairwise_overlaps_in. exists i, j, a, b.
      repeat split; trivial. lia.
    + simpl. lia.
Qed.

Lemma merge_intervals_nonempty (intervals : list interval) :
  Forall (fun i => start i < end_ i) intervals ->
  Forall (fun i => start i < end_ i) (Dash.merge_intervals intervals).
Proof.
  intros H.
  destruct (@merge_intervals_inv (fun i => start i < end_ i)) with (intervals := intervals)
    as (_ & _ & HP); [simpl; intros; lia|exact H|exact HP].
Qed.

Lemma merge_step_not_nil (merged : list interval) (cur : interval) :
  Dash.merge_step merged cur <> [].
Proof.
  unfold Dash.merge_step. destruct (start cur <=? end_ (last merged cur));
    intros H; apply app_eq_nil in H; destruct H; discriminate.
Qed.

Lemma merge_loop_not_nil (rest : list interval) :
  forall acc : list interval, acc <> [] -> fold_left Dash.merge_step rest acc <> [].
Proof.
  induction rest as [|cur rest IH]; intros acc Hacc; simpl; [exact Hacc|].
  apply IH, merge_step_not_nil.
Qed.

Lemma merge_intervals_nil (intervals : list interval) :
  Dash.merge_intervals intervals = [] <-> intervals = [].
Proof.
  split; [|intros ->; reflexivity].
  unfold Dash.merge_intervals. destruct intervals as [|i0 intervals']; [reflexivity|].
  intros H. exfalso.
  pose proof (sort_by_perm interval_leb (i0 :: intervals')) as Hp.
  destruct (sort_by interval_leb (i0 :: intervals')) as [|first rest].
  - apply Permutation_sym, Permutation_nil in Hp. discriminate.
  - apply (@merge_loop_not_nil rest [first]) in H; [exact H|discriminate].
Qed.

Lemma find_overlaps_get (records : list record) (L : string) :
  has_layer L records ->
  Dict.get L (Dash.find_overlaps_within_layer records) =
  Some (map Dash.with_len
          (Dash.merge_intervals (Dash.pairwise_overlaps (layer_intervals L records)))).
Proof.
  intros HL. unfold Dash.find_overlaps_within_layer.
  rewrite (@dict_get_fold_set _ _
             (fun ivs => map Dash.with_len (Dash.merge_intervals (Dash.pairwise_overlaps ivs)))
             L _ (group_by_layer_nodup records)).
  rewrite group_by_layer_get. pose proof (layer_intervals_nonempty HL) as Hn.
  destruct (layer_intervals L records); congruence.
Qed.

(** X4. A point lies in an overlap reported for a layer exactly when two
    records of that layer, at different positions, both contain it; every
    reported overlap has a positive length. *)
Theorem overlaps_are_double_coverage (records : list record) (L : string) :
  has_layer L records ->
  exists overlaps : list span,
    Dict.get L (Dash.find_overlaps_within_layer records) = Some overlaps /\
    (forall z, span_covered z overlaps <->
               doubly_covered z (layer_intervals L records)) /\
    (forall g, In g overlaps -> 0 < len g /\ len g = s_end g - s_start g).
Proof.
  intros HL. eexists. split; [apply (find_overlaps_get HL)|]. split.
  - intros z. rewrite span_covered_with_len, merge_covered.
    apply pairwise_overlaps_covered.
  - intros g Hg. apply in_map_iff in Hg. destruct Hg as (m & <- & Hm).
    assert (Hne : Forall (fun i => start i < end_ i)
                    (Dash.merge_intervals
                       (Dash.pairwise_overlaps (layer_intervals L records)))).
    { apply merge_intervals_nonempty. apply Forall_forall. intros x Hx.
      apply pairwise_overlaps_in in Hx.
      destruct Hx as (i & j & a & b & _ & _ & _ & Hne & ->). exact Hne. }
    rewrite Forall_forall in Hne. specialize (Hne m Hm). simpl. lia.
Qed.

Lemma overlaps_are_double_coverage_witness :
  exists overlaps : list span,
    Dict.get "L" (Dash.find_overlaps_within_layer scenario_b) = Some overlaps /\
    (forall z, span_covered z overlaps <->
               doubly_covered z (layer_intervals "L" scenario_b)) /\
    (forall g, In g overlaps -> 0 < len g /\ len g = s_end g - s_start g).
Proof.
  apply overlaps_are_double_coverage.
  exists (Rec "L" 0 100 None None). split; [now left|reflexivity].
Defined.

(** X5. The list of overlaps of a layer is empty exactly when no two records
    of the layer intersect in more than a point. *)
Theorem no_overlaps_iff_disjoint (records : list record) (L : string) :
  has_layer L records ->
  (Dict.get L (Dash.find_overlaps_within_layer records) = Some [] <->
   forall (i j : nat) (a b : interval),
     (i < j)%nat ->
     nth_error (layer_intervals L records) i = Some a ->
     nth_error (layer_intervals L records) j = Some b ->
     Z.min (end_ a) (end_ b) <= Z.max (start a) (start b)).
Proof.
  intros HL. rewrite (find_overlaps_get HL).
  set (ivs := layer_intervals L records). split.
  - intros H i j a b Hij Ha Hb. injection H as H. apply map_eq_nil in H.
    apply (proj1 (merge_intervals_nil _)) in H.
    destruct (Z.le_gt_cases (Z.min (end_ a) (end_ b)) (Z.max (start a) (start b)))
      as [Hle|Hgt]; [exact Hle|exfalso].
    assert (Hin : In {| start := Z.max (start a) (start b);
                        end_ := Z.min (end_ a) (end_ b) |}
                     (Dash.pairwise_overlaps ivs)).
    { apply pairwise_overlaps_in. exists i, j, a, b. repeat split; trivial. }
    rewrite H in Hin. exact Hin.
  - intros H. f_equal.
    assert (Hnil : Dash.pairwise_overlaps ivs = []).
    { destruct (Dash.pairwise_overlaps ivs) as [|x l] eqn:E; [reflexivity|exfalso].
      assert (Hx : In x (Dash.pairwise_overlaps ivs)) by (rewrite E; now left).
      apply pairwise_overlaps_in in Hx.
      destruct Hx as (i & j & a & b & Hij & Ha & Hb & Hne & _).
      specialize (H i j a b Hij Ha Hb). lia. }
    rewrite Hnil. reflexivity.
Qed.

Lemma no_overlaps_iff_disjoint_witness :
  Dict.get "L" (Dash.find_overlaps_within_layer scenario_a) = Some [] <->
  forall (i j : nat) (a b : interval),
    (i < j)%nat ->
    nth_error (layer_intervals "L" scenario_a) i = Some a ->
    nth_error (layer_intervals "L" scenario_a) j = Some b ->
    Z.min (end_ a) (end_ b) <= Z.max (start a) (start b).
Proof.
  apply no_overlaps_iff_disjoint.
  exists (Rec "L" 100 150 None None). split; [now left|reflexivity].
Defined.

(** ** What the gap detector reports *)

Definition gap_total (gaps : list span) : Z := sum_Z (map len gaps).

Lemma span_covered_app (z : Z) (l1 l2 : list span) :
  span_covered z (l1 ++ l2) <-> span_covered z l1 \/ span_covered z l2.
Proof.
  unfold span_covered. split.
  - intros (i & Hin & Hz). apply in_app_or in Hin. destruct Hin; eauto.
  - intros [(i & Hin & Hz)|(i & Hin & Hz)]; exists i; rewrite in_app_iff; auto.
Qed.

Lemma span_covered_nil (z : Z) : ~ span_covered z [].
Proof. intros (g & [] & _). Qed.

Lemma span_covered_one (z : Z) (g : span) :
  span_covered z [g] <-> s_start g <= z < s_end g.
Proof.
  unfold span_covered. split.
  - intros (i & [<-|[]] & Hz). exact Hz.
  - intros Hz. exists g. split; [now left|exact Hz].
Qed.

Lemma gap_total_app (l1 l2 : list span) : gap_total (l1 ++ l2) = gap_total l1 + gap_total l2.
Proof. unfold gap_total. now rewrite map_app, sum_Z_app. Qed.

Lemma apart_after (rest : list interval) :
  forall x : interval,
  Sorted apart (x :: rest) -> Forall ordered rest ->
  forall y, In y rest -> end_ x < start y.
Proof.
  unfold ordered.
  induction rest as [|y0 rest IH]; intros x Hs Ho y Hy; [contradiction|].
  inversion Hs as [|? ? Hs' Hd]; subst. inversion Hd as [|? ? Hxy]; subst.
  inversion Ho as [|? ? Hy0 Ho']; subst. unfold apart in Hxy.
  destruct Hy as [<-|Hy]; [exact Hxy|].
  pose proof (IH y0 Hs' Ho' y Hy). lia.
Qed.

(** The walk over merged intervals with [start <= end]: the gaps are the
    points from [pos] to the last end that no interval covers, and gaps and
    intervals together are as long as the stretch walked. *)
Lemma gap_walk_points (hi : Z) (merged : list interval) :
  forall (gaps0 : list span) (pos : Z),
  Sorted apart merged ->
  Forall (fun i => start i <= end_ i /\ end_ i <= hi) merged ->
  match merged with [] => True | x :: _ => pos <= start x end ->
  pos <= hi ->
  exists (G : list span) (pos' : Z),
    fold_left Dash.gap_step merged (gaps0, pos) = (gaps0 ++ G, pos') /\
    pos <= pos' <= hi /\
    Forall well_formed_span G /\
    (forall y, In y merged -> end_ y <= pos') /\
    (forall z, span_covered z G <-> pos <= z < pos' /\ ~ covered z merged) /\
    gap_total G + total_len merged = pos' - pos.
Proof.
  induction merged as [|x merged IH]; intros gaps0 pos Hap Hwf Hhd Hhi.
  - exists [], pos. simpl. rewrite app_nil_r.
    split; [reflexivity|]. split; [lia|]. split; [constructor|].
    split; [intros y []|].
    split; [|unfold gap_total, total_len, sum_Z; simpl; lia].
    intros z. split.
    + intros Hc. now apply span_covered_nil in Hc.
    + intros [Hz _]. lia.
  - inversion Hap as [|? ? Hap' Hd]; subst.
    inversion Hwf as [|? ? [Hx1 Hx2] Hwf']; subst.
    set (g := if pos <? start x
              then [ {| s_start := pos; s_end := start x; len := start x - pos |} ]
              else []).
    assert (Hstep : Dash.gap_step (gaps0, pos) x = (gaps0 ++ g, end_ x)).
    { unfold Dash.gap_step, g. replace (Z.max pos (end_ x)) with (end_ x) by lia.
      destruct (pos <? start x); [reflexivity|now rewrite app_nil_r]. }
    change (fold_left Dash.gap_step (x :: merged) (gaps0, pos))
      with (fold_left Dash.gap_step merged (Dash.gap_step (gaps0, pos) x)).
    rewrite Hstep.
    assert (Hafter : forall y, In y merged -> end_ x < start y).
    { apply apart_after; [exact Hap|].
      eapply Forall_impl; [|exact Hwf']. unfold ordered. simpl. intros; lia. }
    destruct (IH (gaps0 ++ g) (end_ x) Hap' Hwf')
      as (G & pos' & Hfold & Hpos & HG & Hends & Hpts & Hlen).
    { destruct merged as [|y merged]; [exact I|].
      assert (end_ x < start y) by (apply Hafter; now left). lia. }
    { lia. }
    assert (Hg : forall z, span_covered z g <-> pos <= z < start x).
    { intros z. unfold g. destruct (Z.ltb_spec pos (start x)).
      - rewrite span_covered_one. simpl. tauto.
      - split; [intros Hc; now apply span_covered_nil in Hc|lia]. }
    assert (Hgl : gap_total g = start x - pos).
    { unfold g, gap_total. destruct (Z.ltb_spec pos (start x)); simpl.
      - rewrite sum_Z_cons. unfold sum_Z. simpl. lia.
      - unfold sum_Z. simpl. lia. }
    exists (g ++ G), pos'. split; [now rewrite app_assoc|].
    split; [lia|]. split.
    { apply Forall_app. split; [|exact HG]. unfold g.
      destruct (Z.ltb_spec pos (start x)); repeat constructor; simpl; lia. }
    split.
    { intros y [<-|Hy]; [lia|now apply Hends]. }
    split.
    + intros z. rewrite span_covered_app, Hg, Hpts, covered_cons.
      assert (Hrest : covered z merged -> end_ x < z).
      { intros (y & Hy & Hz). specialize (Hafter y Hy). lia. }
      split.
      * intros [Hz|[Hz Hn]]; (split; [lia|]); intros [Hc|Hc]; try lia; auto.
        apply Hrest in Hc. lia.
      * intros [Hz Hn]. destruct (Z.lt_ge_cases z (start x)); [left; lia|].
        right. split; [|tauto]. destruct (Z.lt_ge_cases z (end_ x)); [|lia].
        exfalso. apply Hn. left. lia.
    + rewrite gap_total_app, Hgl, total_len_cons. lia.
Qed.

Lemma layer_gaps_points (lo hi : Z) (intervals : list interval) :
  lo <= hi ->
  Forall (fun i => lo <= start i /\ start i <= end_ i /\ end_ i <= hi) intervals ->
  let gaps := Dash.layer_gaps lo hi intervals in
  (forall z, span_covered z gaps <-> lo <= z < hi /\ ~ covered z intervals) /\
  gap_total gaps + Dash.merged_len intervals = hi - lo /\
  Forall well_formed_span gaps.
Proof.
  intros Hlohi Hin.
  destruct (@merge_intervals_inv
              (fun i => lo <= start i /\ start i <= end_ i /\ end_ i <= hi)) with
    (intervals := intervals) as (Hap & _ & HP); [simpl; intros; lia|exact Hin|].
  unfold Dash.layer_gaps, Dash.merged_len.
  fold (total_len (Dash.merge_intervals intervals)).
  assert (Hcov : forall z, covered z (Dash.merge_intervals intervals) <-> covered z intervals)
    by (intros z; apply merge_covered).
  set (merged := Dash.merge_intervals intervals) in *.
  destruct (@gap_walk_points hi merged [] lo)
    as (G & pos' & Hfold & Hpos & HG & Hends & Hpts & Hlen); trivial.
  { eapply Forall_impl; [|exact HP]. simpl. intros; lia. }
  { destruct merged as [|x merged]; [exact I|]. inversion HP; subst. lia. }
  rewrite Hfold. simpl app.
  set (t := if pos' <? hi
            then [ {| s_start := pos'; s_end := hi; len := hi - pos' |} ] else []).
  assert (Hgaps : (if pos' <? hi
                   then G ++ [ {| s_start := pos'; s_end := hi; len := hi - pos' |} ]
                   else G) = G ++ t).
  { unfold t. destruct (pos' <? hi); [reflexivity|now rewrite app_nil_r]. }
  rewrite Hgaps. clear Hgaps.
  assert (Ht : forall z, span_covered z t <-> pos' <= z < hi).
  { intros z. unfold t. destruct (Z.ltb_spec pos' hi).
    - rewrite span_covered_one. simpl. tauto.
    - split; [intros Hc; now apply span_covered_nil in Hc|lia]. }
  assert (Htl : gap_total t = hi - pos').
  { unfold t, gap_total. destruct (Z.ltb_spec pos' hi); simpl.
    - rewrite sum_Z_cons. unfold sum_Z. simpl. lia.
    - unfold sum_Z. simpl. lia. }
  assert (Hbelow : forall z, covered z merged -> z < pos').
  { intros z (y & Hy & Hzy). specialize (Hends y Hy). lia. }
  split; [|split].
  - intros z. rewrite span_covered_app, Hpts, Ht, <- Hcov. split.
    + intros [[Hz Hn]|Hz]; (split; [lia|]); trivial.
      intros Hc. apply Hbelow in Hc. lia.
    + intros [Hz Hn]. destruct (Z.lt_ge_cases z pos'); [left|right]; split; trivial; lia.
  - rewrite gap_total_app, Htl. lia.
  - apply Forall_app. split; [exact HG|]. unfold t.
    destruct (Z.ltb_spec pos' hi); repeat constructor; simpl; lia.
Qed.

Definition record_covers (L : string) (z : Z) (r : record) : Prop :=
  layer r = L /\ r_start r <= z < r_end r.

Lemma layer_intervals_covered (L : string) (records : list record) (z : Z) :
  covered z (layer_intervals L records) <->
  exists r, In r records /\ record_covers L z r.
Proof.
  unfold covered, record_covers. split.
  - intros (i & Hi & Hz). apply layer_intervals_in in Hi.
    destruct Hi as (r & Hr & HL & ->). exists r. simpl in Hz. auto.
  - intros (r & Hr & HL & Hz). exists (interval_of r). split; [|exact Hz].
    unfold layer_intervals. apply in_map. apply filter_In. split; [exact Hr|].
    now apply String.eqb_eq.
Qed.

(** The entry of a layer in the result of [find_gaps_per_layer]. *)
Lemma find_gaps_layer (records : list record) (L : string) :
  (forall r, In r records -> r_start r <= r_end r) ->
  has_layer L records ->
  exists (min_start max_end : Z) (result : Dict.t (list span)),
    is_min min_start (map r_start records) /\
    is_max max_end (map r_end records) /\
    min_start <= max_end /\
    Forall (fun i => min_start <= start i /\ start i <= end_ i /\ end_ i <= max_end)
           (layer_intervals L records) /\
    Dash.find_gaps_per_layer records = Ok result /\
    Dict.get L result =
      Some (Dash.layer_gaps min_start max_end (layer_intervals L records)).
Proof.
  intros Hwf HL. unfold Dash.find_gaps_per_layer.
  assert (Hne : records <> []).
  { destruct HL as (r & Hr & _). intros ->. exact Hr. }
  destruct (@py_min_spec (map r_start records)) as (lo & -> & Hlo).
  { intros H. apply map_eq_nil in H. contradiction. }
  destruct (@py_max_spec (map r_end records)) as (hi & -> & Hhi).
  { intros H. apply map_eq_nil in H. contradiction. }
  simpl bind.
  assert (Hrange : forall r, In r records -> lo <= r_start r /\ r_end r <= hi).
  { intros r Hr. split.
    - apply (proj2 Hlo). now apply in_map.
    - apply (proj2 Hhi). now apply in_map. }
  exists lo, hi. eexists. split; [exact Hlo|]. split; [exact Hhi|]. split.
  { destruct records as [|r0 records']; [congruence|].
    assert (Hr0 : In r0 (r0 :: records')) by now left.
    pose proof (Hrange r0 Hr0). pose proof (Hwf r0 Hr0). lia. }
  split.
  { apply Forall_forall. intros i Hi.
    apply layer_intervals_in in Hi. destruct Hi as (r & Hr & _ & ->). simpl.
    pose proof (Hrange r Hr). pose proof (Hwf r Hr). lia. }
  split; [reflexivity|].
  rewrite (@dict_get_fold_set _ _ (Dash.layer_gaps lo hi) L _
             (group_by_layer_nodup records)).
  rewrite group_by_layer_get. pose proof (layer_intervals_nonempty HL) as Hn.
  destruct (layer_intervals L records); congruence.
Qed.

(** X6. A point lies in a gap reported for a layer exactly when it lies in
    [[min_start, max_end)] and no record of that layer contains it. *)
Theorem gaps_are_the_uncovered_points (records : list record) (L : string) :
  (forall r, In r records -> r_start r <= r_end r) ->
  has_layer L records ->
  exists (min_start max_end : Z) (result : Dict.t (list span)) (gaps : list span),
    is_min min_start (map r_start records) /\
    is_max max_end (map r_end records) /\
    Dash.find_gaps_per_layer records = Ok result /\
    Dict.get L result = Some gaps /\
    forall z, span_covered z gaps <->
              min_start <= z < max_end /\
              ~ exists r, In r records /\ record_covers L z r.
Proof.
  intros Hwf HL.
  destruct (@find_gaps_layer records L Hwf HL)
    as (lo & hi & result & Hlo & Hhi & Hlohi & Hin & Hres & Hget).
  destruct (@layer_gaps_points lo hi (layer_intervals L records) Hlohi Hin)
    as (Hpts & _ & _).
  exists lo, hi, result. eexists.
  split; [exact Hlo|]. split; [exact Hhi|]. split; [exact Hres|]. split; [exact Hget|].
  intros z. rewrite Hpts, layer_intervals_covered. tauto.
Qed.

Definition with_empty_stretch : list record :=
  [ Rec "L" 100 150 None None; Rec "L" 300 300 None None; Rec "M" 0 400 None None ].

Lemma gaps_are_the_uncovered_points_witness :
  exists (min_start max_end : Z) (result : Dict.t (list span)) (gaps : list span),
    is_min min_start (map r_start with_empty_stretch) /\
    is_max max_end (map r_end with_empty_stretch) /\
    Dash.find_gaps_per_layer with_empty_stretch = Ok result /\
    Dict.get "L" result = Some gaps /\
    forall z, span_covered z gaps <->
              min_start <= z < max_end /\
              ~ exists r, In r with_empty_stretch /\ record_covers "L" z r.
Proof.
  apply gaps_are_the_uncovered_points.
  - intros r Hr. simpl in Hr.
    repeat (destruct Hr as [<-|Hr]; [simpl; lia|]). contradiction.
  - exists (Rec "L" 100 150 None None). split; [now left|reflexivity].
Defined.

(** X7. The lengths of the gaps of a layer and the merged length of the
    layer add up to [max_end - min_start], and every gap has a positive
    length [len = end - start]. *)
Theorem gaps_and_coverage_lengths (records : list record) (L : string) :
  (forall r, In r records -> r_start r <= r_end r) ->
  has_layer L records ->
  exists (min_start max_end : Z) (result : Dict.t (list span)) (gaps : list span),
    is_min min_start (map r_start records) /\
    is_max max_end (map r_end records) /\
    Dash.find_gaps_per_layer records = Ok result /\
    Dict.get L result = Some gaps /\
    gap_total gaps + Dash.merged_len (layer_intervals L records) = max_end - min_start /\
    forall g, In g gaps -> 0 < len g /\ len g = s_end g - s_start g.
Proof.
  intros Hwf HL.
  destruct (@find_gaps_layer records L Hwf HL)
    as (lo & hi & result & Hlo & Hhi & Hlohi & Hin & Hres & Hget).
  destruct (@layer_gaps_points lo hi (layer_intervals L records) Hlohi Hin)
    as (_ & Hlen & Hall).
  exists lo, hi, result. eexists.
  split; [exact Hlo|]. split; [exact Hhi|]. split; [exact Hres|]. split; [exact Hget|].
  split; [exact Hlen|]. intros g Hg. rewrite Forall_forall in Hall.
  destruct (Hall g Hg) as [H1 H2]. lia.
Qed.

Lemma gaps_and_coverage_lengths_witness :
  exists (min_start max_end : Z) (result : Dict.t (list span)) (gaps : list span),
    is_min min_start (map r_start with_empty_stretch) /\
    is_max max_end (map r_end with_empty_stretch) /\
    Dash.find_gaps_per_layer with_empty_stretch = Ok result /\
    Dict.get "L" result = Some gaps /\
    gap_total gaps + Dash.merged_len (layer_intervals "L" with_empty_stretch)
      = max_end - min_start /\
    forall g, In g gaps -> 0 < len g /\ len g = s_end g - s_start g.
Proof.
  apply gaps_and_coverage_lengths.
  - intros r Hr. simpl in Hr.
    repeat (destruct Hr as [<-|Hr]; [simpl; lia|]). contradiction.
  - exists (Rec "L" 100 150 None None). split; [now left|reflexivity].
Defined.

(** ** How the filter composes *)

Lemma passes_no_filter (tag : option string) : passes [] tag = true.
Proof. destruct tag as [t|]; simpl; [now destruct (String.eqb t "")|reflexivity]. Qed.

Lemma filter_records_as_filter (records : list record) (fb fm : list string) :
  Dash.filter_records records fb fm =
  filter (fun r => passes fb (bill r) && passes fm (month r)) records.
Proof. unfold Dash.filter_records. now rewrite filter_records_fold. Qed.

Lemma filter_twice (A : Type) (p q : A -> bool) (l : list A) :
  filter q (filter p l) = filter (fun x => p x && q x) l.
Proof.
  induction l as [|x l IH]; simpl; [reflexivity|].
  destruct (p x); simpl; [|exact IH]. destruct (q x); now rewrite IH.
Qed.

(** X8. With both filter lists empty [filter_records] returns the records
    unchanged; filtering twice with the same lists is filtering once; and
    filtering by bills and then by months is filtering by both at once. *)
Theorem filter_records_composes :
  (forall records : list record, Dash.filter_records records [] [] = records) /\
  (forall (records : list record) (fb fm : list string),
     Dash.filter_records (Dash.filter_records records fb fm) fb fm =
     Dash.filter_records records fb fm) /\
  (forall (records : list record) (fb fm : list string),
     Dash.filter_records (Dash.filter_records records fb []) [] fm =
     Dash.filter_records records fb fm).
Proof.
  split; [|split].
  - intros records. rewrite filter_records_as_filter.
    induction records as [|r records IH]; simpl; [reflexivity|].
    now rewrite !passes_no_filter, IH.
  - intros records fb fm. rewrite !filter_records_as_filter, filter_twice.
    apply filter_ext. intros r.
    now destruct (passes fb (bill r)), (passes fm (month r)).
  - intros records fb fm. rewrite !filter_records_as_filter, filter_twice.
    apply filter_ext. intros r. rewrite !passes_no_filter.
    now destruct (passes fb (bill r)), (passes fm (month r)).
Qed.

(** ** More on the progress summary *)















Lemma total_len_nonneg (l : list interval) : Forall ordered l -> 0 <= total_len l.
Proof.
  unfold ordered. induction 1 as [|x l Hx Hl IH].
  - unfold total_len, sum_Z. simpl. lia.
  - rewrite total_len_cons. lia.
Qed.

Lemma gap_total_nonneg (gaps : list span) : Forall well_formed_span gaps -> 0 <= gap_total gaps.
Proof.
  unfold gap_total. induction 1 as [|g gaps [Hg1 Hg2] Hl IH]; simpl.
  - unfold sum_Z. simpl. lia.
  - rewrite sum_Z_cons. lia.
Qed.

Lemma merged_len_bounds (lo hi : Z) (intervals : list interval) :
  lo <= hi ->
  Forall (fun i => lo <= start i /\ start i <= end_ i /\ end_ i <= hi) intervals ->
  0 <= Dash.merged_len intervals <= hi - lo.
Proof.
  intros Hlohi Hin.
  destruct (@layer_gaps_points lo hi intervals Hlohi Hin) as (_ & Hlen & Hall).
  apply gap_total_nonneg in Hall. split; [|lia].
  unfold Dash.merged_len. fold (total_len (Dash.merge_intervals intervals)).
  apply total_len_nonneg.
  destruct (@merge_intervals_inv ordered) with (intervals := intervals)
    as (_ & _ & HP); [unfold ordered; simpl; intros; lia| |exact HP].
  eapply Forall_impl; [|exact Hin]. unfold ordered. simpl. intros; lia.
Qed.




(** ** Chunks without a segment *)





(** ** The chart *)

Section PyIndex.
Variable A : Type.
Variable eqb : A -> A -> bool.
Hypothesis eqb_eq : forall x y, eqb x y = true <-> x = y.



End PyIndex.


(** The colour of a layer is always found. *)
Lemma default_color_found (index : Z) :
  exists d, py_getitem Chart.DEFAULT_COLORS (index mod 5) = Return d /\
            In d Chart.DEFAULT_COLORS.
Proof.
  assert (Hm : 0 <= index mod 5 < 5) by (apply Z.mod_pos_bound; lia).
  assert (Hcases : index mod 5 = 0 \/ index mod 5 = 1 \/ index mod 5 = 2 \/
                   index mod 5 = 3 \/ index mod 5 = 4) by lia.
  destruct Hcases as [->|[->|[->|[->| ->]]]];
    eexists; (split; [reflexivity|unfold Chart.DEFAULT_COLORS; simpl; auto 10]).
Qed.

Lemma get_color_total (layer : string) (index : Z) :
  exists c, Chart.get_color layer index = Return c /\ In c Chart.DEFAULT_COLORS.
Proof.
  unfold Chart.get_color.
  change (Z.of_nat (List.length Chart.DEFAULT_COLORS)) with 5.
  destruct (default_color_found index) as (d & -> & Hd). cbn [obind].
  destruct (Dict.get layer Chart.LAYER_COLORS) as [c|] eqn:E.
  - exists c. split; [reflexivity|]. apply dict_get_in in E.
    unfold Chart.LAYER_COLORS in E. destruct E as [E|[E|[]]];
      injection E as _ <-; unfold Chart.DEFAULT_COLORS; simpl; auto.
  - exists d. split; [reflexivity|exact Hd].
Qed.

(** X13. [get_color] raises nothing, for any index (negative ones too), and
    returns one of the five default colours; it has period 5 in the index;
    the two named layers keep their colour at every index; and a layer
    without a name of its own, at an index that is a multiple of 5, has the
    colour of ["Subgrade"]. *)
Theorem get_color_spec :
  (forall (layer : string) (index : Z),
     exists c, Chart.get_color layer index = Return c /\ In c Chart.DEFAULT_COLORS) /\
  (forall (layer : string) (index : Z),
     Chart.get_color layer (index + 5) = Chart.get_color layer index) /\
  (forall index : Z,
     Chart.get_color "Subgrade" index = Return "#238636" /\
     Chart.get_color "Embankment EW" index = Return "#8957e5") /\
  (forall (layer : string) (index : Z),
     Dict.get layer Chart.LAYER_COLORS = None -> index mod 5 = 0 ->
     Chart.get_color layer index = Return "#238636").
Proof.
  split; [exact get_color_total|]. split; [|split].
  - intros layer index. unfold Chart.get_color.
    change (Z.of_nat (List.length Chart.DEFAULT_COLORS)) with 5.
    replace (index + 5) with (index + 1 * 5) by lia. now rewrite Z.mod_add by lia.
  - intros index. unfold Chart.get_color.
    change (Z.of_nat (List.length Chart.DEFAULT_COLORS)) with 5.
    destruct (default_color_found index) as (d & -> & _). split; reflexivity.
  - intros layer index Hnone Hmod. unfold Chart.get_color.
    change (Z.of_nat (List.length Chart.DEFAULT_COLORS)) with 5.
    rewrite Hmod, Hnone. reflexivity.
Qed.

Lemma get_color_spec_witness : Chart.get_color "Asphalt" (-10) = Return "#238636".
Proof.
  apply (proj2 (proj2 (proj2 get_color_spec))); reflexivity.
Defined.



























(** ** The stretch parser, printing and parsing *)









Section WhileFacts.
Variable A : Type.
Variable p : A -> bool.




End WhileFacts.











(** ** Ingestion *)

Lemma parse_stretch_some (s : string) (a b : Z) :
  Dash.parse_stretch s = Some (a, b) -> 0 <= a <= b.
Proof.
  unfold Dash.parse_stretch.
  destruct (String.eqb s ""); [discriminate|].
  set (t := strip (list_ascii_of_string s)).
  pose proof (take_while_forall is_digit t) as H1.
  destruct (take_while is_digit t) as [|d1 m1]; [discriminate|].
  destruct (drop_while is_space (drop_while is_digit t)) as [|c t']; [discriminate|].
  destruct (Ascii.eqb c "-"); [|discriminate].
  pose proof (take_while_forall is_digit (drop_while is_space t')) as H2.
  destruct (take_while is_digit (drop_while is_space t')) as [|d2 m2]; [discriminate|].
  destruct (at_end _); [|discriminate].
  destruct (Z.leb_spec (int_of_digits (d1 :: m1)) (int_of_digits (d2 :: m2)));
    [|discriminate].
  intros [= <- <-]. split; [|assumption].
  now apply int_of_digits_nonneg.
Qed.

(** What ingestion guarantees of a record. *)
Definition ingested (r : record) : Prop :=
  layer r <> "" /\ 0 <= r_start r <= r_end r /\
  bill r <> Some "" /\ month r <> Some "".

Section IngestFacts.
Variable py_int : string -> option Z.
Variable strptime : string -> string -> option datetime.

Lemma row_step_inv (st : list record * Z) (w : row) :
  Forall ingested (fst st) -> 0 <= snd st ->
  Forall ingested (fst (Ingest.row_step py_int strptime st w)) /\
  0 <= snd (Ingest.row_step py_int strptime st w).
Proof.
  destruct st as [records extent]. simpl. intros Hrec Hext.
  unfold Ingest.row_step.
  destruct (String.eqb_spec (strip_str (cell_item w)) "") as [|Hitem]; simpl; [auto|].
  destruct (String.eqb (strip_str (cell_stretch w)) ""); [auto|].
  destruct (Dash.parse_stretch (strip_str (cell_stretch w))) as [[a b]|] eqn:Ep; [|auto].
  apply parse_stretch_some in Ep. simpl. split.
  - apply Forall_app. split; [exact Hrec|]. constructor; [|constructor].
    unfold ingested. simpl. split; [exact Hitem|]. split; [exact Ep|]. split.
    + destruct (cell_bill w) as [c|]; [|discriminate].
      destruct (String.eqb_spec (strip_str c) ""); [discriminate|congruence].
    + destruct (cell_date w) as [c|]; [|discriminate].
      destruct (Ingest.parse_date strptime c) as [dt|]; [|discriminate].
      intros [= H]. destruct (str_of_Z (dt_year dt)); discriminate.
  - destruct (cell_est w) as [c|]; [|exact Hext].
    destruct (py_int (remove_commas c)) as [est|]; [|exact Hext].
    destruct (Z.ltb_spec 0 est); lia.
Qed.

Lemma row_fold_inv (rows : list row) :
  forall st : list record * Z,
  Forall ingested (fst st) -> 0 <= snd st ->
  Forall ingested (fst (fold_left (Ingest.row_step py_int strptime) rows st)) /\
  0 <= snd (fold_left (Ingest.row_step py_int strptime) rows st).
Proof.
  induction rows as [|w rows IH]; intros st Hrec Hext; simpl; [auto|].
  destruct (@row_step_inv st w Hrec Hext) as [H1 H2]. now apply IH.
Qed.

Lemma extent_of_records (records : list record) :
  records <> [] -> Forall ingested records ->
  exists max_end min_start,
    py_max (map r_end records) = Ok max_end /\
    py_min (map r_start records) = Ok min_start /\
    is_max max_end (map r_end records) /\
    is_min min_start (map r_start records) /\
    0 <= max_end - min_start.
Proof.
  intros Hne Hall.
  destruct (@py_max_spec (map r_end records)) as (hi & Hmax & Hhi).
  { intros H. apply map_eq_nil in H. contradiction. }
  destruct (@py_min_spec (map r_start records)) as (lo & Hmin & Hlo).
  { intros H. apply map_eq_nil in H. contradiction. }
  exists hi, lo. repeat split; trivial; try apply Hhi; try apply Hlo.
  destruct records as [|r0 records']; [congruence|].
  inversion Hall as [|? ? (_ & Hr0 & _) _]; subst.
  assert (r_end r0 <= hi) by (apply (proj2 Hhi); now left).
  assert (lo <= r_start r0) by (apply (proj2 Hlo); now left).
  lia.
Qed.

Lemma parse_rows_ok (rows : list row) :
  exists (records : list record) (route_extent : Z),
    Ingest.parse_rows py_int strptime rows = Ok (records, route_extent) /\
    Forall ingested records /\
    0 < route_extent.
Proof.
  unfold Ingest.parse_rows.
  destruct (@row_fold_inv rows ([], 0)) as [Hrec Hext]; [constructor|simpl; lia|].
  destruct (fold_left (Ingest.row_step py_int strptime) rows ([], 0))
    as [records extent]. simpl in Hrec, Hext.
  destruct (Z.eqb_spec extent 0) as [->|Hne]; simpl.
  - destruct records as [|r0 records']; simpl.
    + exists [], 8000. split; [reflexivity|]. split; [constructor|lia].
    + destruct (@extent_of_records (r0 :: records'))
        as (hi & lo & Hmax & Hmin & _ & _ & Hd); [discriminate|exact Hrec|].
      simpl in Hmax, Hmin. injection Hmax as Hmax. injection Hmin as Hmin.
      rewrite Hmax, Hmin.
      eexists _, _. split; [reflexivity|]. split; [exact Hrec|].
      destruct (Z.eqb_spec (hi - lo) 0); lia.
  - eexists _, _. split; [reflexivity|]. split; [exact Hrec|].
    destruct (Z.eqb_spec extent 0); lia.
Qed.


Lemma passes_of_ingested (filter : list string) (tag : option string) :
  tag <> Some "" -> passes filter tag = passes_as_specified filter tag.
Proof.
  intros Hne. unfold passes, passes_as_specified. destruct tag as [t|]; [|reflexivity].
  destruct (String.eqb_spec t "") as [->|]; [congruence|reflexivity].
Qed.

(** X19. On the records that the row loop of [parse_csv] returns,
    [filter_records] keeps exactly the records whose tag, on each axis, is
    absent or in the filter list, or whose filter list is empty. *)
Theorem filter_of_ingested (rows : list row) (records : list record) (extent : Z)
    (filter_bills filter_months : list string) :
  Ingest.parse_rows py_int strptime rows = Ok (records, extent) ->
  Dash.filter_records records filter_bills filter_months =
  filter (fun r => passes_as_specified filter_bills (bill r) &&
                   passes_as_specified filter_months (month r)) records.
Proof.
  intros Hparse. destruct (parse_rows_ok rows) as (records' & extent' & Heq & Hall & _).
  rewrite Hparse in Heq. injection Heq as <- <-.
  rewrite filter_records_as_filter. apply filter_ext_in. intros r Hr.
  rewrite Forall_forall in Hall. destruct (Hall r Hr) as (_ & _ & Hb & Hm).
  now rewrite (@passes_of_ingested filter_bills _ Hb), (@passes_of_ingested filter_months _ Hm).
Qed.

Lemma row_fold_no_estimate (rows : list row) :
  Forall (fun w => cell_est w = None) rows ->
  forall st : list record * Z,
  snd (fold_left (Ingest.row_step py_int strptime) rows st) = snd st.
Proof.
  induction 1 as [|w rows Hw Hrows IH]; intros st; simpl; [reflexivity|].
  rewrite IH. destruct st as [records extent]. unfold Ingest.row_step.
  destruct (String.eqb _ _ || String.eqb _ _); [reflexivity|].
  destruct (Dash.parse_stretch _); [|reflexivity]. now rewrite Hw.
Qed.

(** X20. When no row has an estimate cell and some record is returned, the
    route extent is [max_end - min_start] of the records, or 8000 when that
    difference is 0; the overall merged length of the records is then at
    most the route extent. *)
Theorem extent_without_estimate (rows : list row) (records : list record) (extent : Z) :
  Forall (fun w => cell_est w = None) rows ->
  Ingest.parse_rows py_int strptime rows = Ok (records, extent) ->
  records <> [] ->
  exists (max_end min_start : Z) (p : progress),
    is_max max_end (map r_end records) /\
    is_min min_start (map r_start records) /\
    extent = (if max_end - min_start =? 0 then 8000 else max_end - min_start) /\
    Dash.compute_progress records extent = Ok p /\
    0 <= overall_len p <= extent /\
    overall_pct p = PctOf (overall_len p) extent.
Proof.
  intros Hno Hparse Hne. unfold Ingest.parse_rows in Hparse.
  pose proof (@row_fold_no_estimate rows Hno ([], 0)) as Hext.
  destruct (@row_fold_inv rows ([], 0)) as [Hrec _]; [constructor|simpl; lia|].
  destruct (fold_left (Ingest.row_step py_int strptime) rows ([], 0))
    as [records' extent']. simpl in Hext, Hrec. subst extent'. simpl in Hparse.
  destruct records' as [|r0 rs] eqn:E.
  { simpl in Hparse. injection Hparse as <- _. congruence. }
  assert (Hne' : r0 :: rs <> []) by discriminate.
  destruct (@extent_of_records (r0 :: rs) Hne' Hrec)
    as (hi & lo & Hmax & Hmin & Hhi & Hlo & Hd).
  simpl in Hparse. simpl in Hmax, Hmin. injection Hmax as Hmax. injection Hmin as Hmin.
  rewrite Hmax, Hmin in Hparse. injection Hparse as <- <-.
  rewrite <- E in *. clear E.
  destruct (compute_progress_ok records'
              (if hi - lo =? 0 then 8000 else hi - lo)) as (entries & _ & Heq).
  exists hi, lo. eexists. split; [exact Hhi|]. split; [exact Hlo|].
  split; [reflexivity|]. split; [exact Heq|]. simpl.
  assert (Hlohi : lo <= hi) by lia.
  assert (Hb : 0 <= Dash.merged_len (map interval_of records') <= hi - lo).
  { apply merged_len_bounds; [exact Hlohi|]. apply Forall_forall. intros i Hi.
    apply in_map_iff in Hi. destruct Hi as (r & <- & Hr). simpl.
    rewrite Forall_forall in Hrec. destruct (Hrec r Hr) as (_ & Hr' & _).
    assert (r_end r <= hi) by (apply (proj2 Hhi); now apply in_map).
    assert (lo <= r_start r) by (apply (proj2 Hlo); now apply in_map).
    lia. }
  unfold pct_val. destruct (Z.eqb_spec (hi - lo) 0) as [H0|H0]; simpl.
  - split; [lia|reflexivity].
  - destruct (Z.eqb_spec (hi - lo) 0); [lia|]. split; [lia|reflexivity].
Qed.

End IngestFacts.

Definition no_int (s : string) : option Z := None.
Definition no_date (s fmt : string) : option datetime := None.

Definition sample_rows : list row :=
  [ Row "Subgrade" "100-150" (Some "B1") None None;
    Row " Subgrade " "600 - 800" (Some " ") None None;
    Row "" "1-2" None None None;
    Row "GSB" "7-5" (Some "B2") None None;
    Row "GSB" "1400-1600" (Some "B2") None None ].

Definition sample_records : list record :=
  [ Rec "Subgrade" 100 150 (Some "B1") None;
    Rec "Subgrade" 600 800 None None;
    Rec "GSB" 1400 1600 (Some "B2") None ].

Lemma filter_of_ingested_witness :
  Dash.filter_records sample_records ["B1"] [] =
  filter (fun r => passes_as_specified ["B1"] (bill r) &&
                   passes_as_specified [] (month r)) sample_records.
Proof.
  apply (@filter_of_ingested no_int no_date sample_rows sample_records 1500).
  reflexivity.
Defined.

Lemma extent_without_estimate_witness :
  exists (max_end min_start : Z) (p : progress),
    is_max max_end (map r_end sample_records) /\
    is_min min_start (map r_start sample_records) /\
    1500 = (if max_end - min_start =? 0 then 8000 else max_end - min_start) /\
    Dash.compute_progress sample_records 1500 = Ok p /\
    0 <= overall_len p <= 1500 /\
    overall_pct p = PctOf (overall_len p) 1500.
Proof.
  apply (@extent_without_estimate no_int no_date sample_rows sample_records 1500).
  - repeat constructor.
  - reflexivity.
  - discriminate.
Defined.

(** ** The analysis step of the front ends *)





(** ** The options of the filter widgets *)

Lemma tag_options_fold_in (tag : record -> option string) (records : list record) :
  forall (s : list string) (t : string),
  In t (fold_left
          (fun s r => if truthy (tag r)
                      then match tag r with
                           | Some t => set_add String.eqb t s
                           | None => s
                           end
                      else s)
          records s) <->
  (exists r, In r records /\ tag r = Some t /\ t <> "") \/ In t s.
Proof.
  induction records as [|r records IH]; intros s t; simpl.
  - split; [auto|]. intros [(r & [] & _)|H]; exact H.
  - rewrite IH. unfold truthy. destruct (tag r) as [t0|] eqn:E.
    + destruct (String.eqb_spec t0 "") as [->|Hne]; simpl.
      * split.
        -- intros [(r' & Hr' & Ht)|H]; [left; exists r'; tauto|auto].
        -- intros [(r' & [<-|Hr'] & Ht & Hn)|H]; [congruence|left; eauto|auto].
      * rewrite (set_add_in String.eqb String.eqb_eq). split.
        -- intros [(r' & Hr' & Ht)|[->|H]];
             [left; exists r'; tauto|left; exists r; auto|auto].
        -- intros [(r' & [<-|Hr'] & Ht & Hn)|H];
             [right; left; congruence|left; eauto|auto].
    + split.
      * intros [(r' & Hr' & Ht)|H]; [left; exists r'; tauto|auto].
      * intros [(r' & [<-|Hr'] & Ht & Hn)|H]; [congruence|left; eauto|auto].
Qed.

Lemma tag_options_in (tag : record -> option string) (records : list record) (t : string) :
  In t (tag_options tag records) <->
  exists r, In r records /\ tag r = Some t /\ t <> "".
Proof.
  unfold tag_options. rewrite sort_by_in, tag_options_fold_in. simpl. tauto.
Qed.

Lemma tag_options_pass (tag : record -> option string) (records : list record) (r : record) :
  In r records -> passes (tag_options tag records) (tag r) = true.
Proof.
  intros Hr. unfold passes. destruct (tag r) as [t|] eqn:E; [|reflexivity].
  destruct (String.eqb_spec t "") as [|Hne]; [reflexivity|]. simpl.
  apply orb_true_iff. right. unfold str_in. apply existsb_exists.
  exists t. split; [|apply String.eqb_refl]. apply tag_options_in. eauto.
Qed.

Lemma filter_all (A : Type) (f : A -> bool) (l : list A) :
  (forall x, In x l -> f x = true) -> filter f l = l.
Proof.
  induction l as [|x l IH]; intros H; simpl; [reflexivity|].
  rewrite (H x (or_introl eq_refl)), IH; [reflexivity|].
  intros y Hy. apply H. now right.
Qed.

(** X22. The bill and month options offered by the filter widgets are the
    non-empty tags of the records, each once, in ascending order; selecting
    all of them keeps every record. *)
Theorem filter_by_all_options (all_records : list record) :
  let bills := tag_options bill all_records in
  let months := tag_options month all_records in
  Dash.filter_records all_records bills months = all_records /\
  StronglySorted str_lt bills /\ StronglySorted str_lt months /\
  (forall b, In b bills <-> exists r, In r all_records /\ bill r = Some b /\ b <> "") /\
  (forall m, In m months <-> exists r, In r all_records /\ month r = Some m /\ m <> "").
Proof.
  intros bills months.
  assert (Hsorted : forall tag, StronglySorted str_lt (tag_options tag all_records)).
  { intros tag. unfold tag_options. apply sort_by_strict.
    - intros x y Hxy. destruct (String.leb_total x y); congruence.
    - intros x y Hxy Hne. apply str_leb_iff in Hxy. tauto.
    - exact str_lt_trans.
    - generalize (@nil string) (NoDup_nil string).
      induction all_records as [|r rs IH]; intros s Hs; simpl; [exact Hs|].
      apply IH. destruct (truthy (tag r)); [|exact Hs].
      destruct (tag r); [|exact Hs]. now apply (set_add_nodup String.eqb String.eqb_eq). }
  split; [|split; [apply Hsorted|split; [apply Hsorted|split]]].
  - rewrite filter_records_as_filter. apply filter_all. intros r Hr.
    unfold bills, months. now rewrite !tag_options_pass.
  - intros b. apply tag_options_in.
  - intros m. apply tag_options_in.
Qed.
